(** * gocql event debouncing and dispatch (events.go, logger.go)

    A shallow embedding of the event pipeline of the driver: the
    [eventDebouncer] that batches pushed event frames, and the session
    handlers [handleSchemaEvent], [handleNodeEvent], [handleNodeUp],
    [handleNodeDown] and [handleNodeConnected] that consume the batches.

    Calls to collaborators (logger, policy, pool, schema describer, control
    connection, ring refresher) are recorded in order as a list of
    [Effect]s; the mutable data the handlers own or share (the debouncer's
    buffer and timer, the host records reachable from the ring) is threaded
    through a small state monad. *)

From Stdlib Require Import ZArith Lia.
From stdpp Require Import base option list gmap strings pretty.

Set Default Proof Using "Type".

(** ** Data model *)

(** [net.IP] is a byte slice. *)
Definition IP : Type := list Byte.byte.

(** Modelled from the spec: the frame declarations live outside events.go.
    Every schema-change variant carries a [keyspace], the keyspace-level one
    also a [change]; topology and status frames carry [change], [host] and
    [port].  [otherFrame] stands for any other implementation of the
    [frame] interface. *)
Inductive frame : Type :=
| schemaChangeKeyspace (change keyspace : string)
| schemaChangeTable (keyspace : string)
| schemaChangeType (keyspace : string)
| schemaChangeFunction (keyspace : string)
| schemaChangeAggregate (keyspace : string)
| topologyChangeEventFrame (change : string) (host : IP) (port : Z)
| statusChangeEventFrame (change : string) (host : IP) (port : Z)
| otherFrame (descr : string).

(** logger.go: [LogLevel] and its named constants. *)
Inductive LogLevel : Type :=
| LogLevelDebug | LogLevelInfo | LogLevelWarn | LogLevelError | LogLevelNone.

(** The [interface{}] values the handlers put in log fields. *)
Inductive LogValue : Type :=
| VString (s : string)
| VInt (n : Z)
| VIP (ip : IP)
| VFrame (f : frame).

(** logger.go: [LogField] and [NewLogField]. *)
Record LogField : Type := NewLogField { Name : string; Value : LogValue }.

(** Modelled from the spec: [KeyspaceUpdateEvent] is declared outside
    events.go; the policy is notified of a keyspace-level change "carrying
    {keyspace, change}". *)
Record KeyspaceUpdateEvent : Type :=
  mkKeyspaceUpdateEvent { Keyspace : string; Change : string }.

(** A [*HostInfo]: the address of a host record in the store. *)
Definition hostref : Type := nat.

(** Calls made on collaborators, in program order.  A [Log] entry is one
    call of the [internalLogger] method of that level ([Warning] is
    [LogLevelWarn], [Info] is [LogLevelInfo], ...). *)
Inductive Effect : Type :=
| Log (level : LogLevel) (msg : string) (fields : list LogField)
| GoCallback (batch : list frame)
| ClearSchema (keyspace : string)
| AwaitSchemaAgreement
| PolicyKeyspaceChanged (ev : KeyspaceUpdateEvent)
| DebounceRingRefresh
| Sleep (d : Z)
| PoolAddHost (host : hostref)
| PolicyAddHost (host : hostref)
| PolicyHostUp (host : hostref)
| PolicyHostDown (host : hostref)
| PoolRemoveHost (hostID : string).

(** ** A state monad that logs collaborator calls *)

Definition M (St A : Type) : Type := St → A * St * list Effect.

Section monad.
Context {St : Type}.

Definition ret {A} (a : A) : M St A := λ s, (a, s, []).

Definition bind {A B} (m : M St A) (k : A → M St B) : M St B :=
  λ s, let '(a, s1, t1) := m s in
       let '(b, s2, t2) := k a s1 in
       (b, s2, t1 ++ t2).

Definition get : M St St := λ s, (s, s, []).
Definition modify (f : St → St) : M St unit := λ s, (tt, f s, []).
Definition emit (e : Effect) : M St unit := λ s, (tt, s, [e]).

(** What a computation leaves behind: final state and emitted calls. *)
Definition exec {A} (m : M St A) (s : St) : St := (m s).1.2.
Definition effects {A} (m : M St A) (s : St) : list Effect := (m s).2.
Definition result {A} (m : M St A) (s : St) : A := (m s).1.1.
End monad.

Declare Scope M_scope.
Delimit Scope M_scope with M.
Notation "x <- m ;; k" := (bind m (λ x, k))
  (at level 100, m at next level, right associativity) : M_scope.
Notation "m ;;; k" := (bind m (λ _, k))
  (at level 100, right associativity) : M_scope.

Section loops.
Context {St : Type}.
Local Open Scope M_scope.

(** [for _, x := range l { body x }] over a slice. *)
Fixpoint forM_ {A} (l : list A) (body : A → M St unit) : M St unit :=
  match l with
  | [] => ret tt
  | x :: l' => body x ;;; forM_ l' body
  end.

(** A [for ... range] loop that updates local variables [acc]. *)
Fixpoint foldM {A B} (step : B → A → M St B) (acc : B) (l : list A) : M St B :=
  match l with
  | [] => ret acc
  | x :: l' => acc' <- step acc x ;; foldM step acc' l'
  end.
End loops.

(** ** The debouncer (events.go, lines 12-87) *)

Record eventDebouncer : Type := mkEventDebouncer {
  name : string;
  (** [Some d]: the timer is armed and expires at instant [d]; [None]: stopped
      or already fired.  Instants and durations are in nanoseconds. *)
  timer : option Z;
  events : list frame;
}.

Definition Second : Z := 1000000000.
Definition eventBufferSize : nat := 1000.
Definition eventDebounceTime : Z := 1 * Second.

Definition set_timer (t : option Z) (e : eventDebouncer) : eventDebouncer :=
  {| name := name e; timer := t; events := events e |}.
Definition set_events (l : list frame) (e : eventDebouncer) : eventDebouncer :=
  {| name := name e; timer := timer e; events := l |}.

(** [newEventDebouncer]: the timer is created and stopped at once, the
    buffer is the nil slice. *)
Definition newEventDebouncer (nm : string) : eventDebouncer :=
  {| name := nm; timer := None; events := [] |}.

Section debouncer.
Local Open Scope M_scope.

(** [e.timer.Reset(d)] executed at instant [now]. *)
Definition timer_Reset (now d : Z) : M eventDebouncer unit :=
  modify (set_timer (Some (now + d)%Z)).

(** [flush]; the caller holds [mu]. *)
Definition flush : M eventDebouncer unit :=
  e <- get ;;
  if decide (length (events e) = 0) then ret tt
  else
    emit (GoCallback (events e)) ;;;
    modify (set_events []).

(** [debounce], executed at instant [now] under [mu]. *)
Definition debounce (now : Z) (f : frame) : M eventDebouncer unit :=
  timer_Reset now eventDebounceTime ;;;
  e <- get ;;
  if decide (length (events e) < eventBufferSize) then
    modify (set_events (events e ++ [f]))
  else
    emit (Log LogLevelWarn "%s: buffer full, dropping event frame: %s"
            [NewLogField "event_name" (VString (name e));
             NewLogField "frame" (VFrame f)]).
End debouncer.

(** *** The flusher goroutine and the timer *)

(** What wakes the [select] of [flusher]. *)
Inductive flusherWake : Type := timer_C | quit.

Section flusher.
Local Open Scope M_scope.

(** One turn of the loop of [flusher]; the result tells whether the loop
    goes on. *)
Definition flusher_turn (w : flusherWake) : M eventDebouncer bool :=
  match w with
  | timer_C => flush ;;; ret true
  | quit => ret false
  end.

(** The armed timer expires: it is no longer active, its channel wakes the
    flusher. *)
Definition timer_expires : M eventDebouncer unit :=
  modify (set_timer None) ;;;
  flusher_turn timer_C ;;;
  ret tt.
End flusher.

(** What can happen to one debouncer: a producer calls [debounce] at some
    instant, or the timer expires. *)
Inductive step : Type :=
| CallDebounce (now : Z) (f : frame)
| TimerExpires.

Definition do_step (st : step) : M eventDebouncer unit :=
  match st with
  | CallDebounce now f => debounce now f
  | TimerExpires => timer_expires
  end.

Definition run_steps (l : list step) : M eventDebouncer unit := forM_ l do_step.

(** The frames handed to [debounce] by a sequence of steps, and the batches
    handed to the callback, the frames dropped with a warning. *)
Definition debounced (l : list step) : list frame :=
  omap (λ st, match st with CallDebounce _ f => Some f | TimerExpires => None end) l.

Definition batches (tr : list Effect) : list (list frame) :=
  omap (λ e, match e with GoCallback b => Some b | _ => None end) tr.

Definition dropped (tr : list Effect) : list frame :=
  omap (λ e, match e with
             | Log LogLevelWarn _ [_; NewLogField _ (VFrame f)] => Some f
             | _ => None
             end) tr.

(** The one warning [debounce] logs when it drops frame [f]. *)
Definition drop_warning (nm : string) (f : frame) : Effect :=
  Log LogLevelWarn "%s: buffer full, dropping event frame: %s"
    [NewLogField "event_name" (VString nm); NewLogField "frame" (VFrame f)].

(** *** Timed runs

    Producers call [debounce] at the given instants (in order); the timer
    expires on its own as soon as its deadline is reached.  Every emitted
    call is stamped with the instant at which it happens. *)

Definition stamp (t : Z) (tr : list Effect) : list (Z * Effect) := (λ e, (t, e)) <$> tr.

(** Let the clock advance to [t] (not included): an armed timer whose
    deadline lies before [t] or at [t] expires at its deadline. *)
Definition advance_to (t : Z) (e : eventDebouncer) : eventDebouncer * list (Z * Effect) :=
  match timer e with
  | Some d =>
      if decide (d ≤ t)%Z
      then (exec timer_expires e, stamp d (effects timer_expires e))
      else (e, [])
  | None => (e, [])
  end.

(** No producer calls any more: an armed timer expires at its deadline. *)
Definition quiesce (e : eventDebouncer) : eventDebouncer * list (Z * Effect) :=
  match timer e with
  | Some d => (exec timer_expires e, stamp d (effects timer_expires e))
  | None => (e, [])
  end.

Fixpoint timed_run (calls : list (Z * frame)) (e : eventDebouncer)
  : eventDebouncer * list (Z * Effect) :=
  match calls with
  | [] => quiesce e
  | (t, f) :: rest =>
      let '(e1, tr1) := advance_to t e in
      let e2 := exec (debounce t f) e1 in
      let tr2 := stamp t (effects (debounce t f) e1) in
      let '(e3, tr3) := timed_run rest e2 in
      (e3, tr1 ++ tr2 ++ tr3)
  end.

(** Consecutive calls are less than [d] apart (and in time order). *)
Fixpoint spaced_less (d : Z) (calls : list (Z * frame)) : Prop :=
  match calls with
  | c1 :: (c2 :: _) as rest => (c1.1 ≤ c2.1 < c1.1 + d)%Z ∧ spaced_less d rest
  | _ => True
  end.

Definition timed_batches (tr : list (Z * Effect)) : list (Z * list frame) :=
  omap (λ te, match te.2 with GoCallback b => Some (te.1, b) | _ => None end) tr.

(** What the buffer holds after one more frame is handed to [debounce]. *)
Definition push (buf : list frame) (f : frame) : list frame :=
  if decide (length buf < eventBufferSize) then buf ++ [f] else buf.

(** The instant of the first call of a run that ends with a call at [t]. *)
Definition first_instant (calls : list (Z * frame)) (t : Z) : Z :=
  default t (head calls.*1).

(** The timer of [e] does not expire at or before instant [t]. *)
Definition quiet_until (t : Z) (e : eventDebouncer) : Prop :=
  match timer e with
  | Some d => (t < d)%Z
  | None => True
  end.

(** ** The session handlers (events.go, lines 111-247) *)

(** Modelled from the spec: [nodeState] is declared outside events.go; a
    host is UP or DOWN. *)
Inductive nodeState : Type := NodeUp | NodeDown.

(** Modelled from the spec: the host record is declared outside events.go;
    it has a connect address, a port, a stable identifier and a state. *)
Record HostInfo : Type := mkHostInfo {
  ConnectAddress : IP;
  Port : Z;
  HostID : string;
  State : nodeState;
}.

Definition HostInfo_setState (st : nodeState) (h : HostInfo) : HostInfo :=
  {| ConnectAddress := ConnectAddress h; Port := Port h;
     HostID := HostID h; State := st |}.

(** Modelled from the spec: [ClusterConfig] is declared outside events.go;
    the handlers read two flags that disable topology and status events and
    a host allow/deny predicate.  [filterHost h] is true when the filter
    rejects [h]. *)
Record ClusterConfig : Type := mkClusterConfig {
  DisableTopologyEvents : bool;
  DisableNodeStatusEvents : bool;
  filterHost : HostInfo → bool;
}.

(** Modelled from the spec: [Session] and its ring are declared outside
    events.go; the ring finds a host record by address.  The ring holds
    pointers: [hosts] is the store of the records they point to, so that a
    state change through one pointer is seen through every other. *)
Record Session : Type := mkSession {
  cfg : ClusterConfig;
  ring : gmap string hostref;
  hosts : hostref → HostInfo;
}.

Definition update_host (p : hostref) (f : HostInfo → HostInfo) (s : Session) : Session :=
  {| cfg := cfg s; ring := ring s;
     hosts := λ q, if decide (q = p) then f (hosts s q) else hosts s q |}.

(** The [nodeEvent] struct local to [handleNodeEvent]. *)
Record nodeEvent : Type := mkNodeEvent { change : string; host : IP; port : Z }.

Definition set_change (c : string) (ev : nodeEvent) : nodeEvent :=
  {| change := c; host := host ev; port := port ev |}.

(** [strings.Join] and [strconv.Itoa]. *)
Definition strings_Join (l : list string) (sep : string) : string := String.concat sep l.
Definition strconv_Itoa (n : Z) : string := pretty n.

Section handlers.
(** [net.IP.String], from Go's standard library. *)
Variable IP_String : IP → string.
(** [host.Version().nodeUpDelay()], declared outside events.go. *)
Variable nodeUpDelay : HostInfo → Z.
(** The order in which [range] visits the entries of the map [sEvents]:
    Go leaves it unspecified, every entry is visited once. *)
Variable rangeOrder : gmap string nodeEvent → list (string * nodeEvent).

Local Open Scope M_scope.

Definition logger (level : LogLevel) (msg : string) (fields : list LogField)
  : M Session unit := emit (Log level msg fields).

(** Modelled from the spec: [s.ring.getHostByIP] is declared outside
    events.go; "getHostByIP(address) -> (host, found)". *)
Definition getHostByIP (ip : string) : M Session (option hostref) :=
  s <- get ;; ret (ring s !! ip).

(** Modelled from the spec: [host.setState] is declared outside events.go;
    it stores the state in the host record. *)
Definition setState (p : hostref) (st : nodeState) : M Session unit :=
  modify (update_host p (HostInfo_setState st)).

(** [s.cfg.filterHost(host)], on the record [host] points to at the time
    of the call. *)
Definition cfg_filterHost (p : hostref) : M Session bool :=
  s <- get ;; ret (filterHost (cfg s) (hosts s p)).

(** Modelled from the spec: [s.debounceRingRefresh] is declared outside
    events.go; it triggers a debounced full ring refresh, that is, it only
    files a request with the ring refresher. *)
Definition debounceRingRefresh : M Session unit := emit DebounceRingRefresh.

Definition handleKeyspaceChange (keyspace change : string) : M Session unit :=
  emit AwaitSchemaAgreement ;;;
  emit (PolicyKeyspaceChanged {| Keyspace := keyspace; Change := change |}).

Definition handleSchemaEvent (frames : list frame) : M Session unit :=
  forM_ frames (λ f,
    match f with
    | schemaChangeKeyspace change keyspace =>
        emit (ClearSchema keyspace) ;;;
        handleKeyspaceChange keyspace change
    | schemaChangeTable keyspace => emit (ClearSchema keyspace)
    | schemaChangeAggregate keyspace => emit (ClearSchema keyspace)
    | schemaChangeFunction keyspace => emit (ClearSchema keyspace)
    | schemaChangeType keyspace => emit (ClearSchema keyspace)
    | _ => ret tt
    end).

Definition startPoolFill (p : hostref) : M Session unit :=
  emit (PoolAddHost p) ;;;
  emit (PolicyAddHost p).

Definition handleNodeUp (eventIp : IP) (eventPort : Z) : M Session unit :=
  logger LogLevelInfo "node is UP: %s:%d"
    [NewLogField "event_ip" (VString (IP_String eventIp));
     NewLogField "event_port" (VInt eventPort)] ;;;
  r <- getHostByIP (IP_String eventIp) ;;
  match r with
  | None => debounceRingRefresh
  | Some p =>
      denied <- cfg_filterHost p ;;
      if denied : bool then ret tt
      else
        s <- get ;;
        let d := nodeUpDelay (hosts s p) in
        (if decide (d > 0)%Z then emit (Sleep d) else ret tt) ;;;
        startPoolFill p
  end.

Definition handleNodeConnected (p : hostref) : M Session unit :=
  s <- get ;;
  logger LogLevelDebug "connected to node: %s:%d (%s)"
    [NewLogField "host_addr" (VIP (ConnectAddress (hosts s p)));
     NewLogField "port" (VInt (Port (hosts s p)));
     NewLogField "host_id" (VString (HostID (hosts s p)))] ;;;
  setState p NodeUp ;;;
  denied <- cfg_filterHost p ;;
  if negb denied then emit (PolicyHostUp p) else ret tt.

Definition handleNodeDown (ip : IP) (port : Z) : M Session unit :=
  logger LogLevelWarn "node is DOWN: %s:%d"
    [NewLogField "host_addr" (VString (IP_String ip));
     NewLogField "port" (VInt port)] ;;;
  r <- getHostByIP (IP_String ip) ;;
  match r with
  | Some p =>
      setState p NodeDown ;;;
      denied <- cfg_filterHost p ;;
      if denied : bool then ret tt
      else
        emit (PolicyHostDown p) ;;;
        s <- get ;;
        let hostID := HostID (hosts s p) in
        emit (PoolRemoveHost hostID)
  | None => ret tt
  end.

(** The text both loops of [handleNodeEvent] log for an event. *)
Definition describe (change : string) (host : IP) (port : Z) : string :=
  strings_Join [change; "->"; IP_String host; ":"; strconv_Itoa port] "".

(** The entry the second loop logs for a merged event. *)
Definition dispatch_log (f : nodeEvent) : Effect :=
  Log LogLevelInfo "dispatching status change event: %v"
    [NewLogField "frame" (VString (describe (change f) (host f) (port f)))].

(** Body of the first loop of [handleNodeEvent]; the locals are
    [topologyEventReceived] and [sEvents]. *)
Definition scan_frame (acc : bool * gmap string nodeEvent) (f : frame)
  : M Session (bool * gmap string nodeEvent) :=
  let '(topologyEventReceived, sEvents) := acc in
  match f with
  | topologyChangeEventFrame change host port =>
      logger LogLevelWarn "received topology change event: %v"
        [NewLogField "frame" (VString (describe change host port))] ;;;
      ret (true, sEvents)
  | statusChangeEventFrame change host port =>
      let event :=
        match sEvents !! IP_String host with
        | Some event => event
        | None => {| change := change; host := host; port := port |}
        end in
      ret (topologyEventReceived, <[IP_String host := set_change change event]> sEvents)
  | _ => ret acc
  end.

(** Body of the second loop of [handleNodeEvent]. *)
Definition dispatch_event (f : nodeEvent) : M Session unit :=
  logger LogLevelInfo "dispatching status change event: %v"
    [NewLogField "frame" (VString (describe (change f) (host f) (port f)))] ;;;
  s <- get ;;
  if decide (change f = "UP") then
    if negb (DisableNodeStatusEvents (cfg s)) then handleNodeUp (host f) (port f)
    else ret tt
  else if decide (change f = "DOWN") then
    if negb (DisableNodeStatusEvents (cfg s)) then handleNodeDown (host f) (port f)
    else ret tt
  else ret tt.

Definition handleNodeEvent (frames : list frame) : M Session unit :=
  acc <- foldM scan_frame (false, ∅) frames ;;
  let '(topologyEventReceived, sEvents) := acc in
  s <- get ;;
  (if topologyEventReceived && negb (DisableTopologyEvents (cfg s))
   then debounceRingRefresh else ret tt) ;;;
  forM_ (rangeOrder sEvents) (λ kf, dispatch_event kf.2).
End handlers.


(** ** Reading traces *)

(** A call of [handleNodeUp] or [handleNodeDown], with the address text and
    the port it was given.  Each handler starts by logging exactly these, so
    its calls can be read off a trace. *)
Inductive handlerCall : Type :=
| CallNodeUp (addr : string) (port : Z)
| CallNodeDown (addr : string) (port : Z).

Definition call_addr (c : handlerCall) : string :=
  match c with CallNodeUp a _ | CallNodeDown a _ => a end.
Definition call_port (c : handlerCall) : Z :=
  match c with CallNodeUp _ p | CallNodeDown _ p => p end.
Definition call_change (c : handlerCall) : string :=
  match c with CallNodeUp _ _ => "UP" | CallNodeDown _ _ => "DOWN" end.

Definition handler_call (e : Effect) : option handlerCall :=
  match e with
  | Log LogLevelInfo msg [NewLogField _ (VString a); NewLogField _ (VInt p)] =>
      if decide (msg = "node is UP: %s:%d") then Some (CallNodeUp a p) else None
  | Log LogLevelWarn msg [NewLogField _ (VString a); NewLogField _ (VInt p)] =>
      if decide (msg = "node is DOWN: %s:%d") then Some (CallNodeDown a p) else None
  | _ => None
  end.

Definition handler_calls (tr : list Effect) : list handlerCall := omap handler_call tr.

(** The handler calls of a trace that concern address [a]. *)
Definition calls_for (a : string) (tr : list Effect) : list handlerCall :=
  filter (λ c, call_addr c = a) (handler_calls tr).

(** The entry the second loop of [handleNodeEvent] logs before it handles a
    merged event. *)
Definition is_dispatch_log (e : Effect) : bool :=
  match e with
  | Log LogLevelInfo msg _ => bool_decide (msg = "dispatching status change event: %v")
  | _ => false
  end.

Definition is_refresh (e : Effect) : bool :=
  match e with DebounceRingRefresh => true | _ => false end.

(** A trace entry that is neither the start of a handler call, nor the
    dispatch of a merged event, nor a ring refresh request. *)
Definition quiet_entry (e : Effect) : Prop :=
  handler_call e = None ∧ is_dispatch_log e = false ∧ is_refresh e = false.

Definition count_of (P : Effect → bool) (tr : list Effect) : nat :=
  length (List.filter P tr).

Definition is_topology (f : frame) : bool :=
  match f with topologyChangeEventFrame _ _ _ => true | _ => false end.

(** The keyspace of a schema-change frame. *)
Definition frame_keyspace (f : frame) : option string :=
  match f with
  | schemaChangeKeyspace _ ks | schemaChangeTable ks | schemaChangeType ks
  | schemaChangeFunction ks | schemaChangeAggregate ks => Some ks
  | _ => None
  end.

(** What the spec asks of the schema reconciler for one frame: invalidate
    the frame's keyspace; for a keyspace-level frame await agreement, then
    notify the policy. *)
Definition schema_calls (f : frame) : list Effect :=
  match f with
  | schemaChangeKeyspace ch ks =>
      [ClearSchema ks; AwaitSchemaAgreement;
       PolicyKeyspaceChanged {| Keyspace := ks; Change := ch |}]
  | _ =>
      match frame_keyspace f with
      | Some ks => [ClearSchema ks]
      | None => []
      end
  end.

Definition is_clear (ks : string) (e : Effect) : bool :=
  match e with ClearSchema k => bool_decide (k = ks) | _ => false end.

Definition is_await (e : Effect) : bool :=
  match e with AwaitSchemaAgreement => true | _ => false end.

(** The keyspace-update events a trace hands to the policy, in order. *)
Definition keyspace_events (tr : list Effect) : list KeyspaceUpdateEvent :=
  omap (λ e, match e with PolicyKeyspaceChanged ev => Some ev | _ => None end) tr.

(** The event a keyspace-level frame stands for. *)
Definition keyspace_level (f : frame) : option KeyspaceUpdateEvent :=
  match f with
  | schemaChangeKeyspace ch ks => Some {| Keyspace := ks; Change := ch |}
  | _ => None
  end.

Section batch_reading.
Variable IP_String : IP → string.

(** The status-change frames of a batch whose address reads [a], in batch
    order. *)
Definition status_for (a : string) (frames : list frame) : list nodeEvent :=
  omap (λ f, match f with
             | statusChangeEventFrame c h p =>
                 if decide (IP_String h = a)
                 then Some {| change := c; host := h; port := p |} else None
             | _ => None
             end) frames.

(** The change of the last status-change frame for [a]. *)
Definition last_change (a : string) (frames : list frame) : option string :=
  change <$> last (status_for a frames).

(** The merged record for [a]: host and port of the first status-change
    frame for [a], change of the last one. *)
Definition merged_for (a : string) (frames : list frame) : option nodeEvent :=
  match status_for a frames with
  | [] => None
  | ev1 :: rest =>
      Some {| change := change (default ev1 (last rest));
              host := host ev1; port := port ev1 |}
  end.

(** The handler call the second loop makes for a merged event. *)
Definition decision (c : ClusterConfig) (ev : nodeEvent) : list handlerCall :=
  if DisableNodeStatusEvents c then []
  else if decide (change ev = "UP") then [CallNodeUp (IP_String (host ev)) (port ev)]
  else if decide (change ev = "DOWN") then [CallNodeDown (IP_String (host ev)) (port ev)]
  else [].
End batch_reading.

(** ** Sample data *)

(** A dotted rendering of an address, standing in for [net.IP.String]. *)
Definition dotted (ip : IP) : string :=
  String.concat "." ((λ b, pretty (Z.of_N (Byte.to_N b))) <$> ip).

Definition ip_10_0_0_1 : IP := [Byte.x0a; Byte.x00; Byte.x00; Byte.x01].
Definition ip_10_0_0_2 : IP := [Byte.x0a; Byte.x00; Byte.x00; Byte.x02].

Definition sample_host : HostInfo :=
  {| ConnectAddress := ip_10_0_0_1; Port := 9042; HostID := "host-1"; State := NodeUp |}.

Definition sample_cfg : ClusterConfig :=
  {| DisableTopologyEvents := false; DisableNodeStatusEvents := false;
     filterHost := λ _, false |}.

(** A session whose ring knows 10.0.0.1 only. *)
Definition sample_session : Session :=
  {| cfg := sample_cfg; ring := {[ "10.0.0.1" := 0 ]}; hosts := λ _, sample_host |}.

Definition sample_batch : list frame :=
  [statusChangeEventFrame "DOWN" ip_10_0_0_1 9042;
   topologyChangeEventFrame "NEW_NODE" ip_10_0_0_2 9042;
   statusChangeEventFrame "UP" ip_10_0_0_1 9043].

(** A debouncer whose buffer is full. *)
Definition full_debouncer : eventDebouncer :=
  {| name := "node-events"; timer := None;
     events := replicate eventBufferSize (otherFrame "filler") |}.

Definition sample_steps : list step :=
  [CallDebounce 0 (schemaChangeTable "app"); TimerExpires;
   CallDebounce 5 (schemaChangeType "app")].

Definition sample_calls : list (Z * frame) :=
  [(0, statusChangeEventFrame "UP" ip_10_0_0_1 9042);
   (400000000, statusChangeEventFrame "DOWN" ip_10_0_0_1 9042)]%Z.

(** ** More on the debouncer in time *)

(** Consecutive calls are more than [d] apart. *)
Fixpoint spaced_more (d : Z) (calls : list (Z * frame)) : Prop :=
  match calls with
  | c1 :: (c2 :: _) as rest => (c1.1 + d < c2.1)%Z ∧ spaced_more d rest
  | _ => True
  end.

(** The untimed calls of a timed trace. *)
Definition untimed (tr : list (Z * Effect)) : list Effect := tr.*2.

(** ** The event classifier (events.go, lines 89-109) *)

(** The part of [Session] that [handleEvent] touches: the two debouncers. *)
Record eventDebouncers : Type := mkEventDebouncers {
  schemaEvents : eventDebouncer;
  nodeEvents : eventDebouncer;
}.

(** Who makes a call: the session itself (its logger), or one of the two
    debouncers (its logger, its callback). *)
Inductive Origin : Type := FromSession | FromSchemaEvents | FromNodeEvents.

#[global] Instance Origin_eq_dec : EqDecision Origin.
Proof. solve_decision. Defined.

Definition is_schema_frame (f : frame) : bool :=
  match f with
  | schemaChangeKeyspace _ _ | schemaChangeTable _ | schemaChangeType _
  | schemaChangeFunction _ | schemaChangeAggregate _ => true
  | _ => false
  end.

Definition is_node_frame (f : frame) : bool :=
  match f with
  | topologyChangeEventFrame _ _ _ | statusChangeEventFrame _ _ _ => true
  | _ => false
  end.

(** Run a debouncer method on [s.schemaEvents], on [s.nodeEvents]. *)
Definition on_schemaEvents (m : M eventDebouncer unit) (s : eventDebouncers)
  : eventDebouncers * list (Origin * Effect) :=
  ({| schemaEvents := exec m (schemaEvents s); nodeEvents := nodeEvents s |},
   (λ e, (FromSchemaEvents, e)) <$> effects m (schemaEvents s)).

Definition on_nodeEvents (m : M eventDebouncer unit) (s : eventDebouncers)
  : eventDebouncers * list (Origin * Effect) :=
  ({| schemaEvents := schemaEvents s; nodeEvents := exec m (nodeEvents s) |},
   (λ e, (FromNodeEvents, e)) <$> effects m (nodeEvents s)).

Section classifier.
(** [frame.String()] and the type name [fmt.Sprintf("%T", f)] prints, both
    declared outside events.go. *)
Variable frame_String : frame → string.
Variable frame_typeName : frame → string.

(** [handleEvent], executed at instant [now]; [parsed] is what
    [framer.parseFrame()] returned: the text of an error, or a frame. *)
Definition handleEvent (now : Z) (parsed : string + frame) (s : eventDebouncers)
  : eventDebouncers * list (Origin * Effect) :=
  match parsed with
  | inl err =>
      (s, [(FromSession,
            Log LogLevelError "unable to parse event frame: %v"
              [NewLogField "err" (VString err)])])
  | inr f =>
      let debug :=
        (FromSession,
         Log LogLevelDebug "handling event frame: %v"
           [NewLogField "frame" (VString (frame_String f))]) in
      match f with
      | schemaChangeKeyspace _ _ | schemaChangeFunction _
      | schemaChangeTable _ | schemaChangeAggregate _ | schemaChangeType _ =>
          let '(s', tr) := on_schemaEvents (debounce now f) s in (s', debug :: tr)
      | topologyChangeEventFrame _ _ _ | statusChangeEventFrame _ _ _ =>
          let '(s', tr) := on_nodeEvents (debounce now f) s in (s', debug :: tr)
      | _ =>
          (s, [debug;
               (FromSession,
                Log LogLevelError "invalid event frame (%v): %v"
                  [NewLogField "frame_type" (VString (frame_typeName f));
                   NewLogField "frame" (VString (frame_String f))])])
      end
  end.

(** What can happen to the pair of debouncers: an event frame arrives, or
    the timer of one of them expires. *)
Inductive pipelineStep : Type :=
| Arrives (now : Z) (parsed : string + frame)
| SchemaTimerExpires
| NodeTimerExpires.

Definition pipeline_step (st : pipelineStep) (s : eventDebouncers)
  : eventDebouncers * list (Origin * Effect) :=
  match st with
  | Arrives now parsed => handleEvent now parsed s
  | SchemaTimerExpires => on_schemaEvents timer_expires s
  | NodeTimerExpires => on_nodeEvents timer_expires s
  end.

Fixpoint run_pipeline (l : list pipelineStep) (s : eventDebouncers)
  : eventDebouncers * list (Origin * Effect) :=
  match l with
  | [] => (s, [])
  | st :: rest =>
      let '(s1, tr1) := pipeline_step st s in
      let '(s2, tr2) := run_pipeline rest s1 in
      (s2, tr1 ++ tr2)
  end.
End classifier.

(** The session at start: both debouncers fresh. *)
Definition new_eventDebouncers : eventDebouncers :=
  {| schemaEvents := newEventDebouncer "schema";
     nodeEvents := newEventDebouncer "node" |}.

(** The batches one debouncer hands to its callback. *)
Definition batches_from (o : Origin) (tr : list (Origin * Effect)) : list (list frame) :=
  omap (λ oe, match oe with
              | (o', GoCallback b) => if decide (o' = o) then Some b else None
              | _ => None
              end) tr.

(** The frames among what [parseFrame] returned. *)
Definition parsed_frames (inputs : list (string + frame)) : list frame :=
  omap (λ p, match p with inr f => Some f | inl _ => None end) inputs.

(** The frames of one kind among what [parseFrame] returned, and the
    instants at which they arrived. *)
Definition arrived (P : frame → bool) (inputs : list (Z * (string + frame))) : list frame :=
  List.filter P (parsed_frames inputs.*2).

Definition arrival_instants (P : frame → bool) (inputs : list (Z * (string + frame)))
  : list Z :=
  omap (λ tp, match tp.2 with
              | inr f => if P f then Some tp.1 else None
              | inl _ => None
              end) inputs.

(** The buffers of both debouncers hold frames of their own kind only. *)
Definition well_sorted (s : eventDebouncers) : Prop :=
  Forall (λ f, is_schema_frame f = true) (events (schemaEvents s)) ∧
  Forall (λ f, is_node_frame f = true) (events (nodeEvents s)).

Definition is_clear_any (e : Effect) : bool :=
  match e with ClearSchema _ => true | _ => false end.

(** ** logger.go *)

(** The int behind each named [LogLevel]. *)
Definition LogLevel_int (l : LogLevel) : Z :=
  match l with
  | LogLevelDebug => 5
  | LogLevelInfo => 4
  | LogLevelWarn => 3
  | LogLevelError => 2
  | LogLevelNone => 0
  end.

(** [LogLevel.String], on the int a [LogLevel] is. *)
Definition LogLevel_String (recv : Z) : string :=
  if decide (recv = LogLevel_int LogLevelDebug) then "debug"
  else if decide (recv = LogLevel_int LogLevelInfo) then "info"
  else if decide (recv = LogLevel_int LogLevelWarn) then "warn"
  else if decide (recv = LogLevel_int LogLevelError) then "error"
  else if decide (recv = LogLevel_int LogLevelNone) then "none"
  else strings_Join ["invalid level "; strconv_Itoa recv] "".

(** The implementations of [AdvancedLogger] and of [StdLogger]: the
    [nopLogger] of logger.go, whose methods have empty bodies, or a logger
    declared elsewhere. *)
Inductive AdvancedLogger : Type := nopLogger | someAdvancedLogger.
Inductive StdLogger : Type := nopStdLogger | someStdLogger.

(** What reaches a logger declared elsewhere: a call of the method of some
    level of an [AdvancedLogger], or a [Printf] on a [StdLogger].  A value
    handed to [Printf] is an [interface{}], [None] when nil. *)
Inductive LoggerCall : Type :=
| AdvancedCall (level : LogLevel) (msg : string) (fields : list LogField)
| StdPrintf (format : string) (values : list (option LogValue)).

Definition AdvancedLogger_call (l : AdvancedLogger) (level : LogLevel)
    (msg : string) (fields : list LogField) : list LoggerCall :=
  match l with
  | nopLogger => []
  | someAdvancedLogger => [AdvancedCall level msg fields]
  end.

Definition StdLogger_Printf (l : StdLogger) (format : string)
    (values : list (option LogValue)) : list LoggerCall :=
  match l with
  | nopStdLogger => []
  | someStdLogger => [StdPrintf format values]
  end.

(** [loggerAdapter]; a nil interface is [None]. *)
Record loggerAdapter : Type := mkLoggerAdapter {
  legacyLogLevel : Z;
  advLogger : option AdvancedLogger;
  legacyLogger : option StdLogger;
}.

Definition newline : string := String (Ascii.ascii_of_nat 10) EmptyString.

(** The loop of [logLegacy] that copies the field values into [values],
    starting at index [i]; [None] is the panic of an index out of range. *)
Fixpoint fill_values (fields : list LogField) (values : list (option LogValue)) (i : nat)
  : option (list (option LogValue)) :=
  match fields with
  | [] => Some values
  | v :: rest =>
      if decide (i < length values)
      then fill_values rest (<[i := Some (Value v)]> values) (S i)
      else None
  end.

(** The values [logLegacy] hands to [Printf]: a slice of the 5-element
    array [small] when there are at most 5 fields, a fresh slice
    otherwise. *)
Definition legacy_values (fields : list LogField) : option (list (option LogValue)) :=
  let l := length fields in
  let values :=
    if decide (l ≤ 5) then take l (replicate 5 None) else replicate l None in
  fill_values fields values 0.

(** [logLegacy]; [None] is a panic (index out of range, or a method call on
    a nil [legacyLogger]). *)
Definition logLegacy (recv : loggerAdapter) (msg : string) (fields : list LogField)
  : option (list LoggerCall) :=
  values ← legacy_values fields;
  lg ← legacyLogger recv;
  Some (StdLogger_Printf lg (strings_Join ["gocql: "; msg; newline] "") values).

Definition loggerAdapter_Error (recv : loggerAdapter) (msg : string)
    (fields : list LogField) : option (list LoggerCall) :=
  match advLogger recv with
  | Some a => Some (AdvancedLogger_call a LogLevelError msg fields)
  | None =>
      if decide (LogLevel_int LogLevelError ≤ legacyLogLevel recv)%Z
      then logLegacy recv msg fields else Some []
  end.

Definition loggerAdapter_Warning (recv : loggerAdapter) (msg : string)
    (fields : list LogField) : option (list LoggerCall) :=
  match advLogger recv with
  | Some a => Some (AdvancedLogger_call a LogLevelWarn msg fields)
  | None =>
      if decide (LogLevel_int LogLevelWarn ≤ legacyLogLevel recv)%Z
      then logLegacy recv msg fields else Some []
  end.

Definition loggerAdapter_Info (recv : loggerAdapter) (msg : string)
    (fields : list LogField) : option (list LoggerCall) :=
  match advLogger recv with
  | Some a => Some (AdvancedLogger_call a LogLevelInfo msg fields)
  | None =>
      if decide (LogLevel_int LogLevelInfo ≤ legacyLogLevel recv)%Z
      then logLegacy recv msg fields else Some []
  end.

Definition loggerAdapter_Debug (recv : loggerAdapter) (msg : string)
    (fields : list LogField) : option (list LoggerCall) :=
  match advLogger recv with
  | Some a => Some (AdvancedLogger_call a LogLevelDebug msg fields)
  | None =>
      if decide (LogLevel_int LogLevelDebug ≤ legacyLogLevel recv)%Z
      then logLegacy recv msg fields else Some []
  end.

(** [newInternalLoggerFromAdvancedLogger]: the level is left at its zero
    value. *)
Definition newInternalLoggerFromAdvancedLogger (logger : option AdvancedLogger)
  : loggerAdapter :=
  {| legacyLogLevel := 0; advLogger := logger; legacyLogger := None |}.

Definition newInternalLoggerFromStdLogger (logger : option StdLogger) (level : Z)
  : loggerAdapter :=
  {| legacyLogLevel := level; advLogger := None; legacyLogger := logger |}.

Definition nilInternalLogger : loggerAdapter :=
  {| legacyLogLevel := LogLevel_int LogLevelNone;
     advLogger := Some nopLogger; legacyLogger := None |}.

(** The four methods of the [internalLogger] interface, by severity. *)
Inductive logMethod : Type := MError | MWarning | MInfo | MDebug.

Definition logMethod_level (m : logMethod) : LogLevel :=
  match m with
  | MError => LogLevelError
  | MWarning => LogLevelWarn
  | MInfo => LogLevelInfo
  | MDebug => LogLevelDebug
  end.

Definition loggerAdapter_method (m : logMethod)
  : loggerAdapter → string → list LogField → option (list LoggerCall) :=
  match m with
  | MError => loggerAdapter_Error
  | MWarning => loggerAdapter_Warning
  | MInfo => loggerAdapter_Info
  | MDebug => loggerAdapter_Debug
  end.

(** What a [Log] entry of a trace does when the logger is the adapter
    [recv]: the method of its level is called. *)
Definition log_through (recv : loggerAdapter) (e : Effect) : option (list LoggerCall) :=
  match e with
  | Log LogLevelError msg fields => loggerAdapter_Error recv msg fields
  | Log LogLevelWarn msg fields => loggerAdapter_Warning recv msg fields
  | Log LogLevelInfo msg fields => loggerAdapter_Info recv msg fields
  | Log LogLevelDebug msg fields => loggerAdapter_Debug recv msg fields
  | _ => Some []
  end.

(** ** More reading of traces *)

Definition is_log (e : Effect) : bool :=
  match e with Log _ _ _ => true | _ => false end.

(** A trace entry that is no call on the pool or on the policy. *)
Definition no_pool_or_policy (e : Effect) : bool :=
  match e with
  | PoolAddHost _ | PolicyAddHost _ | PolicyHostUp _ | PolicyHostDown _
  | PoolRemoveHost _ | PolicyKeyspaceChanged _ => false
  | _ => true
  end.

(** The entry just before each ring refresh request of a trace; [prev] is
    the entry before the trace itself. *)
Fixpoint refresh_triggers (prev : option Effect) (tr : list Effect)
  : list (option Effect) :=
  match tr with
  | [] => []
  | e :: tr' => (if is_refresh e then [prev] else []) ++ refresh_triggers (Some e) tr'
  end.

(** The entry [handleNodeUp] logs when it is called for an address that the
    ring of [s] does not know. *)
Definition up_for_unknown (s : Session) (e : Effect) : Prop :=
  ∃ a p,
    e = Log LogLevelInfo "node is UP: %s:%d"
          [NewLogField "event_ip" (VString a); NewLogField "event_port" (VInt p)] ∧
    ring s !! a = None.

(** A call of [handleNodeUp] for an address that the ring of [s] does not
    know. *)
Definition is_unknown_up (s : Session) (c : handlerCall) : bool :=
  match c with
  | CallNodeUp a _ => bool_decide (ring s !! a = None)
  | CallNodeDown _ _ => false
  end.

Section node_reading.
Variable IP_String : IP → string.

(** The host [q] is the target of a DOWN decision of the batch: status
    events are enabled and some address of the ring that points to [q] has
    DOWN as the change of its last status-change frame. *)
Definition goes_down (s : Session) (frames : list frame) (q : hostref) : Prop :=
  DisableNodeStatusEvents (cfg s) = false ∧
  ∃ a, ring s !! a = Some q ∧ last_change IP_String a frames = Some "DOWN".

(** The addresses that have a status-change frame in the batch. *)
Definition status_addresses (frames : list frame) : gset string :=
  list_to_set
    (omap (λ f, match f with
                | statusChangeEventFrame _ h _ => Some (IP_String h)
                | _ => None
                end) frames).
End node_reading.

(** ** More sample data *)

Definition sample_sparse_calls : list (Z * frame) :=
  [(0, schemaChangeTable "app"); (1500000000, schemaChangeType "app")]%Z.

Definition sample_inputs : list (string + frame) :=
  [inr (schemaChangeTable "app"); inl "short read";
   inr (statusChangeEventFrame "UP" ip_10_0_0_1 9042); inr (otherFrame "ready")].

Definition deny_all_session : Session :=
  {| cfg := {| DisableTopologyEvents := false; DisableNodeStatusEvents := false;
               filterHost := λ _, true |};
     ring := {[ "10.0.0.1" := 0 ]}; hosts := λ _, sample_host |}.

Definition status_disabled_session : Session :=
  {| cfg := {| DisableTopologyEvents := false; DisableNodeStatusEvents := true;
               filterHost := λ _, false |};
     ring := {[ "10.0.0.1" := 0 ]}; hosts := λ _, sample_host |}.

Definition sample_pipeline : list pipelineStep :=
  [Arrives 0 (inr (schemaChangeKeyspace "DROPPED" "app"));
   Arrives 10 (inr (statusChangeEventFrame "UP" ip_10_0_0_1 9042));
   Arrives 20 (inr (schemaChangeTable "app"));
   SchemaTimerExpires].
(** * Properties *)

(** ** The monad *)

Section monad_facts.
Context {St : Type}.
Implicit Types s : St.

Lemma effects_bind {A B} (m : M St A) (k : A → M St B) s :
  effects (bind m k) s = effects m s ++ effects (k (result m s)) (exec m s).
Proof.
  unfold effects, exec, result, bind.
  destruct (m s) as [[a s1] t1]; simpl. by destruct (k a s1) as [[b s2] t2].
Qed.

Lemma exec_bind {A B} (m : M St A) (k : A → M St B) s :
  exec (bind m k) s = exec (k (result m s)) (exec m s).
Proof.
  unfold exec, result, bind.
  destruct (m s) as [[a s1] t1]; simpl. by destruct (k a s1) as [[b s2] t2].
Qed.

Lemma result_bind {A B} (m : M St A) (k : A → M St B) s :
  result (bind m k) s = result (k (result m s)) (exec m s).
Proof.
  unfold exec, result, bind.
  destruct (m s) as [[a s1] t1]; simpl. by destruct (k a s1) as [[b s2] t2].
Qed.

End monad_facts.

(** ** The debouncer *)

Section debouncer_facts.
Implicit Types (e : eventDebouncer) (f : frame) (now : Z).

Lemma debounce_room e now f :
  length (events e) < eventBufferSize →
  debounce now f e =
    (tt, set_events (events e ++ [f]) (set_timer (Some (now + eventDebounceTime)%Z) e), []).
Proof.
  intros Hlt. unfold debounce, timer_Reset, bind, modify, get; simpl.
  by rewrite decide_True.
Qed.

Lemma debounce_full e now f :
  ¬ length (events e) < eventBufferSize →
  debounce now f e =
    (tt, set_timer (Some (now + eventDebounceTime)%Z) e, [drop_warning (name e) f]).
Proof.
  intros Hlt. unfold debounce, timer_Reset, bind, modify, get, emit; simpl.
  by rewrite decide_False.
Qed.

Lemma flush_empty e : events e = [] → flush e = (tt, e, []).
Proof. intros He. unfold flush, bind, get; simpl. by rewrite He. Qed.

Lemma flush_nonempty e :
  events e ≠ [] → flush e = (tt, set_events [] e, [GoCallback (events e)]).
Proof.
  intros He. unfold flush, bind, get, emit, modify; simpl.
  rewrite decide_False; [done|]. by destruct (events e).
Qed.

Lemma timer_expires_empty e :
  events e = [] → timer_expires e = (tt, set_timer None e, []).
Proof.
  intros He. unfold timer_expires, flusher_turn, bind, modify, ret.
  by rewrite flush_empty.
Qed.

Lemma timer_expires_nonempty e :
  events e ≠ [] →
  timer_expires e = (tt, set_events [] (set_timer None e), [GoCallback (events e)]).
Proof.
  intros He. unfold timer_expires, flusher_turn, bind, modify, ret.
  by rewrite flush_nonempty.
Qed.

Lemma do_step_bound e st :
  length (events e) ≤ eventBufferSize →
  length (events (exec (do_step st) e)) ≤ eventBufferSize.
Proof.
  intros Hle. destruct st as [now f|]; simpl.
  - destruct (decide (length (events e) < eventBufferSize)) as [Hlt|Hge].
    + unfold exec. rewrite debounce_room by done. simpl.
      rewrite length_app. simpl. lia.
    + unfold exec. by rewrite debounce_full.
  - destruct (decide (events e = [])) as [He|He]; unfold exec.
    + by rewrite timer_expires_empty.
    + rewrite timer_expires_nonempty by done. simpl. lia.
Qed.

Lemma run_steps_bound l e :
  length (events e) ≤ eventBufferSize →
  length (events (exec (run_steps l) e)) ≤ eventBufferSize.
Proof.
  revert e. induction l as [|st l IH]; intros e Hle; [done|].
  unfold run_steps in *. simpl. rewrite exec_bind.
  apply IH. by apply do_step_bound.
Qed.
End debouncer_facts.

Section debouncer_conservation.
Implicit Types (e : eventDebouncer) (f : frame) (l : list step).

Lemma run_steps_cons st l e :
  effects (run_steps (st :: l)) e =
    effects (do_step st) e ++ effects (run_steps l) (exec (do_step st) e) ∧
  exec (run_steps (st :: l)) e = exec (run_steps l) (exec (do_step st) e).
Proof. unfold run_steps. simpl. by rewrite effects_bind, exec_bind. Qed.

(** The four things one step can do. *)
Lemma do_step_cases st e :
  (∃ now f, st = CallDebounce now f ∧ length (events e) < eventBufferSize ∧
     events (exec (do_step st) e) = events e ++ [f] ∧ effects (do_step st) e = []) ∨
  (∃ now f, st = CallDebounce now f ∧ ¬ length (events e) < eventBufferSize ∧
     events (exec (do_step st) e) = events e ∧
     effects (do_step st) e = [drop_warning (name e) f]) ∨
  (st = TimerExpires ∧ events e = [] ∧
     events (exec (do_step st) e) = [] ∧ effects (do_step st) e = []) ∨
  (st = TimerExpires ∧ events e ≠ [] ∧
     events (exec (do_step st) e) = [] ∧ effects (do_step st) e = [GoCallback (events e)]).
Proof.
  destruct st as [now f|]; simpl.
  - destruct (decide (length (events e) < eventBufferSize)) as [Hlt|Hge].
    + left. exists now, f. unfold exec, effects. by rewrite debounce_room.
    + right; left. exists now, f. unfold exec, effects. by rewrite debounce_full.
  - destruct (decide (events e = [])) as [He|He].
    + right; right; left. unfold exec, effects. by rewrite timer_expires_empty.
    + right; right; right. unfold exec, effects. by rewrite timer_expires_nonempty.
Qed.

Lemma run_steps_conserved l e :
  events e ++ debounced l ≡ₚ
    concat (batches (effects (run_steps l) e)) ++
    events (exec (run_steps l) e) ++
    dropped (effects (run_steps l) e).
Proof.
  revert e. induction l as [|st l IH]; intros e.
  - simpl. by rewrite !app_nil_r.
  - destruct (run_steps_cons st l e) as [-> ->].
    unfold batches, dropped in *. rewrite !omap_app.
    specialize (IH (exec (do_step st) e)).
    destruct (do_step_cases st e)
      as [(now & f & -> & _ & Hev & Htr)|[(now & f & -> & _ & Hev & Htr)|
          [(-> & He & Hev & Htr)|(-> & He & Hev & Htr)]]];
      rewrite Htr; rewrite Hev in IH; simpl in *.
    + rewrite <- IH. by rewrite <- app_assoc.
    + rewrite app_assoc, <- !Permutation_middle, <- app_assoc.
      by apply Permutation_skip.
    + rewrite He. simpl. by rewrite <- IH.
    + rewrite <- app_assoc. by rewrite <- IH.
Qed.

Lemma run_steps_in_order l e :
  dropped (effects (run_steps l) e) = [] →
  concat (batches (effects (run_steps l) e)) ++ events (exec (run_steps l) e) =
    events e ++ debounced l.
Proof.
  revert e. induction l as [|st l IH]; intros e.
  - simpl. by rewrite app_nil_r.
  - destruct (run_steps_cons st l e) as [-> ->].
    unfold batches, dropped in *. rewrite !omap_app.
    specialize (IH (exec (do_step st) e)).
    destruct (do_step_cases st e)
      as [(now & f & -> & _ & Hev & Htr)|[(now & f & -> & _ & Hev & Htr)|
          [(-> & He & Hev & Htr)|(-> & He & Hev & Htr)]]];
      rewrite Htr; rewrite Hev in IH; simpl in *.
    + intros Hd. rewrite IH by done. by rewrite <- app_assoc.
    + done.
    + intros Hd. rewrite IH by done. by rewrite He.
    + intros Hd. rewrite <- app_assoc. by rewrite IH.
Qed.
End debouncer_conservation.

Section debouncer_timed.
Implicit Types (e : eventDebouncer) (f : frame) (t : Z).

Lemma fold_push_take (fs buf : list frame) :
  length buf ≤ eventBufferSize →
  fold_left push fs buf = buf ++ take (eventBufferSize - length buf) fs.
Proof.
  revert buf. induction fs as [|f fs IH]; intros buf Hle.
  - by rewrite take_nil, app_nil_r.
  - cbn [fold_left]. unfold push at 2.
    destruct (decide (length buf < eventBufferSize)) as [Hlt|Hge].
    + rewrite IH by (rewrite length_app; simpl; lia).
      replace (eventBufferSize - length buf)
        with (S (eventBufferSize - length (buf ++ [f])))
        by (rewrite length_app; simpl; lia).
      rewrite firstn_cons. by rewrite <- app_assoc.
    + rewrite IH by done.
      replace (eventBufferSize - length buf) with 0 by lia.
      by rewrite !take_0.
Qed.

Lemma fold_push_nonempty (fs buf : list frame) :
  buf ≠ [] → fold_left push fs buf ≠ [].
Proof.
  revert buf. induction fs as [|f fs IH]; intros buf Hne; [done|].
  simpl. apply IH. unfold push. case_decide; [|done]. by destruct buf.
Qed.

Lemma debounce_push e t f :
  events (exec (debounce t f) e) = push (events e) f ∧
  timer (exec (debounce t f) e) = Some (t + eventDebounceTime)%Z ∧
  name (exec (debounce t f) e) = name e ∧
  batches (effects (debounce t f) e) = [].
Proof.
  unfold push, exec, effects.
  destruct (decide (length (events e) < eventBufferSize)) as [Hlt|Hge].
  - by rewrite debounce_room.
  - by rewrite debounce_full.
Qed.

Lemma timed_batches_app (a b : list (Z * Effect)) :
  timed_batches (a ++ b) = timed_batches a ++ timed_batches b.
Proof. apply omap_app. Qed.

Lemma timed_batches_stamp t (tr : list Effect) :
  timed_batches (stamp t tr) = (λ b, (t, b)) <$> batches tr.
Proof.
  induction tr as [|x tr IH]; [done|].
  unfold timed_batches, stamp, batches in *. cbn [fmap list_fmap omap list_omap].
  rewrite IH. by destruct x.
Qed.

Lemma advance_to_quiet t e : quiet_until t e → advance_to t e = (e, []).
Proof.
  unfold quiet_until, advance_to. destruct (timer e) as [d|]; [|done].
  intros Hlt. rewrite decide_False; [done|lia].
Qed.

Lemma quiesce_armed e d :
  timer e = Some d → events e ≠ [] →
  timed_batches (quiesce e).2 = [(d, events e)].
Proof.
  intros Ht He. unfold quiesce. rewrite Ht. unfold effects.
  by rewrite timer_expires_nonempty.
Qed.

Lemma timed_run_burst calls t f e :
  spaced_less eventDebounceTime (calls ++ [(t, f)]) →
  quiet_until (first_instant calls t) e →
  fold_left push (calls.*2 ++ [f]) (events e) ≠ [] →
  timed_batches (timed_run (calls ++ [(t, f)]) e).2 =
    [((t + eventDebounceTime)%Z, fold_left push (calls.*2 ++ [f]) (events e))].
Proof.
  revert e. induction calls as [|[t1 f1] calls IH]; intros e Hsp Hq Hne.
  - cbn [app timed_run]. unfold first_instant in Hq. simpl in Hq.
    rewrite advance_to_quiet by done.
    destruct (debounce_push e t f) as (Hev & Htm & _ & Hb).
    destruct (quiesce _) as [e3 tr3] eqn:Hqs.
    cbn [snd app]. rewrite timed_batches_app, timed_batches_stamp, Hb.
    cbn [fmap list_fmap app].
    change tr3 with ((e3, tr3).2). rewrite <- Hqs.
    rewrite (quiesce_armed _ _ Htm); rewrite Hev; [done|].
    simpl in Hne. done.
  - cbn [app timed_run]. unfold first_instant in Hq. simpl in Hq.
    rewrite advance_to_quiet by done.
    destruct (debounce_push e t1 f1) as (Hev & Htm & _ & Hb).
    destruct (timed_run _ _) as [e3 tr3] eqn:Hrun.
    cbn [snd app]. rewrite timed_batches_app, timed_batches_stamp, Hb.
    cbn [fmap list_fmap app].
    change tr3 with ((e3, tr3).2). rewrite <- Hrun.
    rewrite IH.
    + by rewrite Hev.
    + destruct calls as [|[t2 f2] calls]; simpl in Hsp; tauto.
    + unfold quiet_until. rewrite Htm. unfold first_instant.
      destruct calls as [|[t2 f2] calls]; simpl in *; lia.
    + by rewrite Hev.
Qed.
End debouncer_timed.

(** ** The session handlers *)

Section handler_facts.
Variable IP_String : IP → string.
Variable nodeUpDelay : HostInfo → Z.
Variable rangeOrder : gmap string nodeEvent → list (string * nodeEvent).
Hypothesis rangeOrder_perm : ∀ m, rangeOrder m ≡ₚ map_to_list m.

Implicit Types (s : Session) (f : frame) (ev : nodeEvent) (a : string).

Lemma handleNodeUp_run ip port s :
  handleNodeUp IP_String nodeUpDelay ip port s =
    (tt, s,
     Log LogLevelInfo "node is UP: %s:%d"
       [NewLogField "event_ip" (VString (IP_String ip));
        NewLogField "event_port" (VInt port)] ::
     match ring s !! IP_String ip with
     | None => [DebounceRingRefresh]
     | Some p =>
         if filterHost (cfg s) (hosts s p) then []
         else (if decide (nodeUpDelay (hosts s p) > 0)%Z
               then [Sleep (nodeUpDelay (hosts s p))] else [])
              ++ [PoolAddHost p; PolicyAddHost p]
     end).
Proof.
  unfold handleNodeUp, logger, getHostByIP, cfg_filterHost,
    debounceRingRefresh, startPoolFill, bind, emit, get, ret; simpl.
  destruct (ring s !! IP_String ip) as [p|]; simpl; [|done].
  destruct (filterHost (cfg s) (hosts s p)); simpl; [done|].
  by destruct (decide (nodeUpDelay (hosts s p) > 0)%Z).
Qed.

Lemma handleNodeDown_run ip port s :
  handleNodeDown IP_String ip port s =
    match ring s !! IP_String ip with
    | None =>
        (tt, s,
         [Log LogLevelWarn "node is DOWN: %s:%d"
            [NewLogField "host_addr" (VString (IP_String ip));
             NewLogField "port" (VInt port)]])
    | Some p =>
        (tt, update_host p (HostInfo_setState NodeDown) s,
         Log LogLevelWarn "node is DOWN: %s:%d"
           [NewLogField "host_addr" (VString (IP_String ip));
            NewLogField "port" (VInt port)] ::
         if filterHost (cfg s) (HostInfo_setState NodeDown (hosts s p)) then []
         else [PolicyHostDown p; PoolRemoveHost (HostID (hosts s p))])
    end.
Proof.
  unfold handleNodeDown, logger, getHostByIP, cfg_filterHost, setState,
    bind, emit, get, ret, modify; simpl.
  destruct (ring s !! IP_String ip) as [p|]; simpl; [|done].
  destruct (decide (p = p)); [|done].
  destruct (filterHost (cfg s) (HostInfo_setState NodeDown (hosts s p))); simpl; [done|].
  by destruct (decide (p = p)).
Qed.

Lemma handleNodeConnected_run p s :
  handleNodeConnected p s =
    (tt, update_host p (HostInfo_setState NodeUp) s,
     Log LogLevelDebug "connected to node: %s:%d (%s)"
       [NewLogField "host_addr" (VIP (ConnectAddress (hosts s p)));
        NewLogField "port" (VInt (Port (hosts s p)));
        NewLogField "host_id" (VString (HostID (hosts s p)))] ::
     if filterHost (cfg s) (HostInfo_setState NodeUp (hosts s p)) then []
     else [PolicyHostUp p]).
Proof.
  unfold handleNodeConnected, logger, cfg_filterHost, setState,
    bind, emit, get, ret, modify; simpl.
  destruct (decide (p = p)); [|done].
  by destruct (filterHost (cfg s) (HostInfo_setState NodeUp (hosts s p))).
Qed.
(** *** The second loop of [handleNodeEvent] *)

Lemma dispatch_event_run ev s :
  dispatch_event IP_String nodeUpDelay ev s =
    if decide (change ev = "UP") then
      if DisableNodeStatusEvents (cfg s) then (tt, s, [dispatch_log IP_String ev])
      else (tt, s, dispatch_log IP_String ev :: effects (handleNodeUp IP_String nodeUpDelay (host ev) (port ev)) s)
    else if decide (change ev = "DOWN") then
      if DisableNodeStatusEvents (cfg s) then (tt, s, [dispatch_log IP_String ev])
      else (tt, exec (handleNodeDown IP_String (host ev) (port ev)) s,
            dispatch_log IP_String ev :: effects (handleNodeDown IP_String (host ev) (port ev)) s)
    else (tt, s, [dispatch_log IP_String ev]).
Proof.
  unfold dispatch_event, logger, bind, emit, get, ret; simpl.
  destruct (decide (change ev = "UP")); [|destruct (decide (change ev = "DOWN"))];
    destruct (DisableNodeStatusEvents (cfg s)); simpl; try done.
  - unfold effects. by rewrite handleNodeUp_run.
  - unfold effects, exec. by destruct (handleNodeDown _ _ _ s) as [[[] s1] t1].
Qed.

Lemma handler_calls_app (t1 t2 : list Effect) :
  handler_calls (t1 ++ t2) = handler_calls t1 ++ handler_calls t2.
Proof. apply omap_app. Qed.

Lemma handler_calls_handleNodeUp ip port s :
  handler_calls (effects (handleNodeUp IP_String nodeUpDelay ip port) s) =
    [CallNodeUp (IP_String ip) port].
Proof.
  unfold effects. rewrite handleNodeUp_run. cbn [snd].
  unfold handler_calls. cbn [omap list_omap handler_call].
  rewrite decide_True by done.
  destruct (ring s !! IP_String ip) as [p|]; [|done].
  destruct (filterHost (cfg s) (hosts s p)); [done|].
  by destruct (decide (nodeUpDelay (hosts s p) > 0)%Z).
Qed.

Lemma handler_calls_handleNodeDown ip port s :
  handler_calls (effects (handleNodeDown IP_String ip port) s) =
    [CallNodeDown (IP_String ip) port].
Proof.
  unfold effects. rewrite handleNodeDown_run.
  destruct (ring s !! IP_String ip) as [p|]; cbn [snd];
    unfold handler_calls; cbn [omap list_omap handler_call];
    rewrite decide_True by done; [|done].
  by destruct (filterHost (cfg s) (HostInfo_setState NodeDown (hosts s p))).
Qed.

Lemma handleNodeDown_frame ip port s :
  cfg (exec (handleNodeDown IP_String ip port) s) = cfg s ∧
  ring (exec (handleNodeDown IP_String ip port) s) = ring s ∧
  ∀ q, State (hosts (exec (handleNodeDown IP_String ip port) s) q) = NodeUp →
       hosts (exec (handleNodeDown IP_String ip port) s) q = hosts s q.
Proof.
  unfold exec. rewrite handleNodeDown_run.
  destruct (ring s !! IP_String ip) as [p|]; cbn; [|done].
  split_and!; [done..|]. intros q. by case_decide.
Qed.

Lemma dispatch_event_frame ev s :
  cfg (exec (dispatch_event IP_String nodeUpDelay ev) s) = cfg s ∧
  ring (exec (dispatch_event IP_String nodeUpDelay ev) s) = ring s ∧
  ∀ q, State (hosts (exec (dispatch_event IP_String nodeUpDelay ev) s) q) = NodeUp →
       hosts (exec (dispatch_event IP_String nodeUpDelay ev) s) q = hosts s q.
Proof.
  unfold exec at 1 2 3 4. rewrite dispatch_event_run.
  repeat case_decide; destruct (DisableNodeStatusEvents (cfg s)); cbn [fst snd];
    try done.
  apply handleNodeDown_frame.
Qed.

Lemma dispatch_event_calls ev s :
  handler_calls (effects (dispatch_event IP_String nodeUpDelay ev) s) =
    decision IP_String (cfg s) ev.
Proof.
  unfold effects at 1. rewrite dispatch_event_run. unfold decision.
  repeat case_decide; destruct (DisableNodeStatusEvents (cfg s)); cbn [fst snd];
    try done.
  - change (handler_calls (?x :: ?l)) with (handler_calls l).
    apply handler_calls_handleNodeUp.
  - change (handler_calls (?x :: ?l)) with (handler_calls l).
    apply handler_calls_handleNodeDown.
Qed.

Lemma dispatch_event_head ev s :
  ∃ rest, effects (dispatch_event IP_String nodeUpDelay ev) s =
            dispatch_log IP_String ev :: rest.
Proof.
  unfold effects at 1. rewrite dispatch_event_run.
  repeat case_decide; destruct (DisableNodeStatusEvents (cfg s)); cbn [fst snd];
    eauto.
Qed.

Lemma forM_dispatch_frame (l : list (string * nodeEvent)) s :
  let s' := exec (forM_ l (λ kf, dispatch_event IP_String nodeUpDelay kf.2)) s in
  cfg s' = cfg s ∧ ring s' = ring s ∧
  ∀ q, State (hosts s' q) = NodeUp → hosts s' q = hosts s q.
Proof.
  revert s. induction l as [|[k ev] l IH]; intros s; [done|].
  cbn [forM_ snd]. cbv zeta. rewrite exec_bind.
  destruct (dispatch_event_frame ev s) as (Hc & Hr & Hu).
  destruct (IH (exec (dispatch_event IP_String nodeUpDelay ev) s)) as (Hc' & Hr' & Hu').
  cbv zeta in Hc', Hr', Hu'.
  split_and!; [congruence..|].
  intros q Hq. rewrite Hu' by done. apply Hu. by rewrite <- Hu'.
Qed.

Lemma forM_dispatch_calls (l : list (string * nodeEvent)) s :
  handler_calls (effects (forM_ l (λ kf, dispatch_event IP_String nodeUpDelay kf.2)) s) =
    l ≫= (λ kf, decision IP_String (cfg s) kf.2).
Proof.
  revert s. induction l as [|[k ev] l IH]; intros s; [done|].
  cbn [forM_ snd mbind list_bind]. rewrite effects_bind, handler_calls_app.
  rewrite dispatch_event_calls, IH.
  by destruct (dispatch_event_frame ev s) as (-> & _).
Qed.

Lemma forM_dispatch_head (l : list (string * nodeEvent)) s :
  effects (forM_ l (λ kf, dispatch_event IP_String nodeUpDelay kf.2)) s = [] ∨
  ∃ e rest,
    effects (forM_ l (λ kf, dispatch_event IP_String nodeUpDelay kf.2)) s = e :: rest ∧
    is_dispatch_log e = true.
Proof.
  destruct l as [|[k ev] l]; [by left|right].
  cbn [forM_ snd]. rewrite effects_bind.
  destruct (dispatch_event_head ev s) as [rest ->].
  by eexists _, _.
Qed.

(** *** The first loop of [handleNodeEvent] *)

Lemma scan_frame_status acc c h p s :
  scan_frame IP_String acc (statusChangeEventFrame c h p) s =
    ((acc.1,
      <[IP_String h :=
          set_change c (default {| change := c; host := h; port := p |}
                                (acc.2 !! IP_String h))]> acc.2),
     s, []).
Proof.
  destruct acc as [b m]. unfold scan_frame, ret. simpl.
  by destruct (m !! IP_String h).
Qed.

Lemma scan_frame_topology acc c h p s :
  scan_frame IP_String acc (topologyChangeEventFrame c h p) s =
    ((true, acc.2), s,
     [Log LogLevelWarn "received topology change event: %v"
        [NewLogField "frame" (VString (describe IP_String c h p))]]).
Proof. by destruct acc as [b m]. Qed.

Lemma scan_frame_other acc f s :
  is_topology f = false → (∀ c h p, f ≠ statusChangeEventFrame c h p) →
  scan_frame IP_String acc f s = (acc, s, []).
Proof.
  destruct acc as [b m]. intros Ht Hs.
  destruct f as [| | | | | |c h p|]; try done. by destruct (Hs c h p).
Qed.

Lemma scan_frame_quiet acc f s :
  exec (scan_frame IP_String acc f) s = s ∧
  Forall quiet_entry (effects (scan_frame IP_String acc f) s) ∧
  (result (scan_frame IP_String acc f) s).1 = acc.1 || is_topology f.
Proof.
  unfold exec, effects, result.
  destruct f;
    try (rewrite scan_frame_other by done; cbn; by rewrite orb_false_r).
  - rewrite scan_frame_topology. cbn. rewrite orb_true_r.
    split_and!; [done| |done]. by repeat constructor.
  - rewrite scan_frame_status. cbn. by rewrite orb_false_r.
Qed.

Lemma foldM_scan_quiet frames acc s :
  exec (foldM (scan_frame IP_String) acc frames) s = s ∧
  Forall quiet_entry (effects (foldM (scan_frame IP_String) acc frames) s) ∧
  (result (foldM (scan_frame IP_String) acc frames) s).1 =
    acc.1 || existsb is_topology frames.
Proof.
  revert acc. induction frames as [|f frames IH]; intros acc.
  - cbn. by rewrite orb_false_r.
  - cbn [foldM existsb]. rewrite exec_bind, effects_bind, result_bind.
    destruct (scan_frame_quiet acc f s) as (-> & Hq & Hb).
    destruct (IH (result (scan_frame IP_String acc f) s)) as (-> & Hq' & ->).
    split_and!; [done|by apply Forall_app|]. by rewrite Hb, orb_assoc.
Qed.

Lemma foldM_scan_snoc frames f acc s :
  result (foldM (scan_frame IP_String) acc (frames ++ [f])) s =
    result (scan_frame IP_String (result (foldM (scan_frame IP_String) acc frames) s) f) s.
Proof.
  revert acc. induction frames as [|f' frames IH]; intros acc.
  - cbn [app foldM]. by rewrite result_bind.
  - cbn [app foldM]. rewrite !result_bind.
    destruct (scan_frame_quiet acc f' s) as (-> & _). apply IH.
Qed.

(** *** The merged map *)

Lemma status_for_app a (l1 l2 : list frame) :
  status_for IP_String a (l1 ++ l2) = status_for IP_String a l1 ++ status_for IP_String a l2.
Proof. apply omap_app. Qed.

Lemma status_for_key a frames ev :
  ev ∈ status_for IP_String a frames → IP_String (host ev) = a.
Proof.
  unfold status_for. rewrite list_elem_of_omap. intros (f & _ & Hf).
  destruct f as [| | | | | |c h p|]; try done.
  case_decide; [|done]. by simplify_eq.
Qed.

Lemma merged_for_key a frames ev :
  merged_for IP_String a frames = Some ev → IP_String (host ev) = a.
Proof.
  unfold merged_for. destruct (status_for IP_String a frames) as [|ev1 rest] eqn:Hl; [done|].
  intros [= <-]. simpl. apply (status_for_key a frames). rewrite Hl. by left.
Qed.

Lemma merged_for_snoc_status a frames c h p :
  merged_for IP_String a (frames ++ [statusChangeEventFrame c h p]) =
    if decide (IP_String h = a)
    then Some (set_change c (default {| change := c; host := h; port := p |}
                                     (merged_for IP_String a frames)))
    else merged_for IP_String a frames.
Proof.
  unfold merged_for. rewrite status_for_app. cbn [status_for omap list_omap].
  case_decide; [|by rewrite app_nil_r].
  destruct (status_for IP_String a frames) as [|ev1 rest]; [done|].
  cbn [app]. by rewrite last_snoc.
Qed.

Lemma merged_for_snoc_other a frames f :
  (∀ c h p, f ≠ statusChangeEventFrame c h p) →
  merged_for IP_String a (frames ++ [f]) = merged_for IP_String a frames.
Proof.
  intros Hf. unfold merged_for. rewrite status_for_app.
  replace (status_for IP_String a [f]) with (@nil nodeEvent); [by rewrite app_nil_r|].
  destruct f as [| | | | | |c h p|]; try done. by destruct (Hf c h p).
Qed.

Lemma scan_lookup frames b a s :
  (result (foldM (scan_frame IP_String) (b, ∅) frames) s).2 !! a =
    merged_for IP_String a frames.
Proof.
  induction frames as [|f frames IH] using rev_ind; [done|].
  rewrite foldM_scan_snoc.
  destruct f as [| | | | |c h p|c h p|];
    try (unfold result at 1; rewrite scan_frame_other by done;
         rewrite merged_for_snoc_other by done; exact IH).
  - unfold result at 1. rewrite scan_frame_topology.
    rewrite merged_for_snoc_other by done. exact IH.
  - unfold result at 1. rewrite scan_frame_status. cbn [fst snd].
    rewrite merged_for_snoc_status, lookup_insert.
    case_decide; [|done]. subst a. by rewrite IH.
Qed.

(** *** Reading the calls for one address off the second loop *)

Lemma filter_key_unique (l : list (string * nodeEvent)) a :
  NoDup l.*1 →
  filter (λ kf, kf.1 = a) l =
    match (list_to_map l : gmap string nodeEvent) !! a with
    | Some ev => [(a, ev)]
    | None => []
    end.
Proof.
  induction l as [|[k ev] l IH]; [done|].
  cbn [fmap list_fmap fst]. rewrite NoDup_cons. intros [Hk Hnd].
  rewrite filter_cons, list_to_map_cons. cbn [fst]. case_decide as Hka.
  - subst k. rewrite lookup_insert_eq. f_equal.
    rewrite IH by done.
    destruct (list_to_map l !! a) as [ev'|] eqn:Hl; [|done].
    apply elem_of_list_to_map_2 in Hl. destruct Hk.
    apply list_elem_of_fmap. by exists (a, ev').
  - rewrite lookup_insert_ne by done. by apply IH.
Qed.

Lemma filter_decision_addr c ev a :
  filter (λ x, call_addr x = a) (decision IP_String c ev) =
    if decide (IP_String (host ev) = a) then decision IP_String c ev else [].
Proof.
  unfold decision. destruct (DisableNodeStatusEvents c); [by case_decide|].
  destruct (decide (change ev = "UP")); [|destruct (decide (change ev = "DOWN"))];
    rewrite ?filter_cons, ?filter_nil; cbn [call_addr]; by case_decide.
Qed.

Lemma calls_bind_filter (l : list (string * nodeEvent)) c a :
  (∀ k ev, (k, ev) ∈ l → IP_String (host ev) = k) →
  filter (λ x, call_addr x = a) (l ≫= (λ kf, decision IP_String c kf.2)) =
    filter (λ kf, kf.1 = a) l ≫= (λ kf, decision IP_String c kf.2).
Proof.
  induction l as [|[k ev] l IH]; intros Hkey; [done|].
  cbn [mbind list_bind snd]. rewrite filter_app, filter_cons. cbn [fst].
  rewrite IH by (intros ???; apply Hkey; by right).
  rewrite filter_decision_addr.
  rewrite (Hkey k ev) by (by left).
  by destruct (decide (k = a)).
Qed.

(** *** [handleNodeEvent] as a whole *)

Lemma handleNodeEvent_run frames s :
  let m := (result (foldM (scan_frame IP_String) (false, ∅) frames) s).2 in
  let loop := forM_ (rangeOrder m) (λ kf, dispatch_event IP_String nodeUpDelay kf.2) in
  effects (handleNodeEvent IP_String nodeUpDelay rangeOrder frames) s =
    effects (foldM (scan_frame IP_String) (false, ∅) frames) s ++
    (if existsb is_topology frames && negb (DisableTopologyEvents (cfg s))
     then [DebounceRingRefresh] else []) ++
    effects loop s ∧
  exec (handleNodeEvent IP_String nodeUpDelay rangeOrder frames) s = exec loop s.
Proof.
  cbv zeta. unfold handleNodeEvent. rewrite effects_bind, exec_bind.
  destruct (foldM_scan_quiet frames (false, ∅) s) as (Hex & _ & Hflag).
  rewrite Hex. cbn [fst orb] in Hflag.
  destruct (result (foldM (scan_frame IP_String) (false, ∅) frames) s) as [b m].
  cbn [fst snd] in *. subst b.
  rewrite effects_bind, exec_bind. cbn [effects exec result get fst snd app].
  rewrite effects_bind, exec_bind.
  by destruct (existsb is_topology frames && negb (DisableTopologyEvents (cfg s))).
Qed.

Lemma quiet_entries_calls (tr : list Effect) :
  Forall quiet_entry tr → handler_calls tr = [].
Proof.
  induction 1 as [|e tr (He & _) _ IH]; [done|].
  unfold handler_calls in *. cbn [omap list_omap]. by rewrite He.
Qed.

Lemma rangeOrder_entries m k ev :
  (k, ev) ∈ rangeOrder m ↔ m !! k = Some ev.
Proof using rangeOrder_perm. by rewrite rangeOrder_perm, elem_of_map_to_list. Qed.

Lemma rangeOrder_filter_key m a :
  filter (λ kf, kf.1 = a) (rangeOrder m) =
    match m !! a with Some ev => [(a, ev)] | None => [] end.
Proof using rangeOrder_perm.
  assert (NoDup (rangeOrder m).*1) as Hnd.
  { rewrite rangeOrder_perm. apply NoDup_fst_map_to_list. }
  rewrite filter_key_unique by done.
  rewrite (list_to_map_proper (rangeOrder m) (map_to_list m)) by done.
  by rewrite list_to_map_to_list.
Qed.

Lemma calls_for_handleNodeEvent frames a s :
  calls_for a (effects (handleNodeEvent IP_String nodeUpDelay rangeOrder frames) s) =
    match merged_for IP_String a frames with
    | Some ev => decision IP_String (cfg s) ev
    | None => []
    end.
Proof using rangeOrder_perm.
  destruct (handleNodeEvent_run frames s) as [-> _].
  destruct (foldM_scan_quiet frames (false, ∅) s) as (_ & Hq & _).
  unfold calls_for. rewrite !handler_calls_app, (quiet_entries_calls _ Hq).
  replace (handler_calls (if existsb is_topology frames && negb (DisableTopologyEvents (cfg s))
                          then [DebounceRingRefresh] else [])) with (@nil handlerCall)
    by (by destruct (_ && _)).
  cbn [app]. rewrite forM_dispatch_calls.
  rewrite calls_bind_filter.
  - rewrite rangeOrder_filter_key, scan_lookup.
    destruct (merged_for IP_String a frames) as [ev|]; [|done].
    cbn [mbind list_bind snd]. by rewrite app_nil_r.
  - intros k ev Hin. apply rangeOrder_entries in Hin.
    rewrite scan_lookup in Hin. by apply merged_for_key in Hin.
Qed.
End handler_facts.

(** ** The schema reconciler *)

Section schema_facts.
Implicit Types (s : Session) (frames : list frame).

Lemma handleSchemaEvent_run frames s :
  handleSchemaEvent frames s = (tt, s, frames ≫= schema_calls).
Proof.
  unfold handleSchemaEvent.
  match goal with |- forM_ _ ?b _ = _ => set (body := b) end.
  assert (∀ f s', body f s' = (tt, s', schema_calls f)) as Hb by (by intros []).
  clearbody body. revert s.
  induction frames as [|f frames IH]; intros s; [done|].
  cbn [forM_ mbind list_bind]. unfold bind. by rewrite Hb, IH.
Qed.

Lemma count_of_app P (t1 t2 : list Effect) :
  count_of P (t1 ++ t2) = count_of P t1 + count_of P t2.
Proof. unfold count_of. by rewrite List.filter_app, length_app. Qed.

Lemma schema_calls_clear_one ks f :
  count_of (is_clear ks) (schema_calls f) =
    if decide (frame_keyspace f = Some ks) then 1 else 0.
Proof.
  destruct f as [ch k|k|k|k|k| | |]; cbn [schema_calls frame_keyspace];
    unfold count_of; cbn [List.filter is_clear]; try done.
  all: destruct (decide (k = ks)) as [->|Hne];
    [rewrite bool_decide_eq_true_2 by done; by rewrite decide_True by done
    |rewrite bool_decide_eq_false_2 by done;
     by rewrite decide_False by congruence].
Qed.

Lemma schema_calls_clear ks frames :
  count_of (is_clear ks) (frames ≫= schema_calls) =
    length (filter (λ f, frame_keyspace f = Some ks) frames).
Proof.
  induction frames as [|f frames IH]; [done|].
  cbn [mbind list_bind]. rewrite count_of_app, IH, filter_cons.
  rewrite schema_calls_clear_one. by case_decide.
Qed.

Lemma schema_calls_await frames :
  count_of is_await (frames ≫= schema_calls) = length (omap keyspace_level frames).
Proof.
  induction frames as [|f frames IH]; [done|].
  cbn [mbind list_bind omap list_omap]. rewrite count_of_app, IH.
  by destruct f.
Qed.

Lemma schema_calls_events frames :
  keyspace_events (frames ≫= schema_calls) = omap keyspace_level frames.
Proof.
  induction frames as [|f frames IH]; [done|].
  cbn [mbind list_bind omap list_omap]. unfold keyspace_events in *.
  rewrite omap_app, IH. by destruct f.
Qed.
End schema_facts.

(** * The claims *)

(** ** Debouncer *)

(** C3. The pending sequence of a debouncer never holds more than 1000
    frames, whatever calls of [debounce] and timer expiries it goes
    through.  A [debounce] call on a buffer that already holds 1000 frames
    leaves the buffer as it is and logs exactly one warning that carries the
    debouncer's name and the dropped frame; a call below capacity appends
    the frame at the end and logs nothing. *)
Theorem debounce_buffer_bounded :
  eventBufferSize = 1000 ∧
  (∀ nm l, length (events (exec (run_steps l) (newEventDebouncer nm))) ≤ eventBufferSize) ∧
  (∀ e now f, length (events e) = eventBufferSize →
     events (exec (debounce now f) e) = events e ∧
     effects (debounce now f) e =
       [Log LogLevelWarn "%s: buffer full, dropping event frame: %s"
          [NewLogField "event_name" (VString (name e));
           NewLogField "frame" (VFrame f)]]) ∧
  (∀ e now f, length (events e) < eventBufferSize →
     events (exec (debounce now f) e) = events e ++ [f] ∧
     effects (debounce now f) e = []).
Proof.
  split_and!.
  - done.
  - intros nm l. apply run_steps_bound. simpl. lia.
  - intros e now f Hlen. unfold exec, effects.
    rewrite debounce_full by lia. done.
  - intros e now f Hlen. unfold exec, effects.
    by rewrite debounce_room.
Qed.

Lemma debounce_buffer_bounded_witness :
  length (events full_debouncer) = eventBufferSize ∧
  events (exec (debounce 7 (otherFrame "late")) full_debouncer) = events full_debouncer ∧
  length (events (newEventDebouncer "node-events")) < eventBufferSize ∧
  events (exec (debounce 7 (otherFrame "first")) (newEventDebouncer "node-events")) =
    [otherFrame "first"].
Proof.
  split; [reflexivity|]. split.
  - apply (proj1 (proj2 (proj2 debounce_buffer_bounded))). reflexivity.
  - split; [unfold eventBufferSize; simpl; lia|].
    apply (proj2 (proj2 (proj2 debounce_buffer_bounded))
             (newEventDebouncer "node-events") 7%Z (otherFrame "first")).
    unfold eventBufferSize; simpl; lia.
Defined.

(** C4. [flush] on an empty buffer calls nothing and leaves the debouncer
    as it is.  On a non-empty buffer it hands exactly the whole buffer to the
    callback and leaves a fresh empty buffer, so that the next frame handed
    to [debounce] starts a new batch.  Over any run of [debounce] calls and
    timer expiries no frame is lost or delivered twice: the frames handed in
    are, up to order, those delivered, those still pending and those dropped
    with a warning; when none is dropped, the batches followed by the pending
    frames are the frames handed in, in arrival order. *)
Theorem flush_hands_over_buffer (e : eventDebouncer) :
  (events e = [] → flush e = (tt, e, [])) ∧
  (events e ≠ [] → flush e = (tt, set_events [] e, [GoCallback (events e)])) ∧
  (∀ now f, events (exec (debounce now f) (exec flush e)) = [f]) ∧
  (∀ l, events e ++ debounced l ≡ₚ
          concat (batches (effects (run_steps l) e)) ++
          events (exec (run_steps l) e) ++
          dropped (effects (run_steps l) e)) ∧
  (∀ l, dropped (effects (run_steps l) e) = [] →
        concat (batches (effects (run_steps l) e)) ++ events (exec (run_steps l) e) =
          events e ++ debounced l).
Proof.
  split_and!.
  - apply flush_empty.
  - apply flush_nonempty.
  - intros now f.
    assert (events (exec flush e) = []) as Hnil.
    { destruct (decide (events e = [])) as [He|He]; unfold exec.
      + by rewrite flush_empty.
      + by rewrite flush_nonempty. }
    unfold exec at 1. rewrite debounce_room; simpl; rewrite Hnil; [done|].
    unfold eventBufferSize; simpl; lia.
  - intros l. apply run_steps_conserved.
  - intros l. apply run_steps_in_order.
Qed.

Lemma flush_hands_over_buffer_witness :
  flush (newEventDebouncer "schema-events") = (tt, newEventDebouncer "schema-events", []) ∧
  flush (set_events [otherFrame "a"] (newEventDebouncer "schema-events")) =
    (tt, newEventDebouncer "schema-events", [GoCallback [otherFrame "a"]]) ∧
  concat (batches (effects (run_steps sample_steps) (newEventDebouncer "schema-events"))) ++
    events (exec (run_steps sample_steps) (newEventDebouncer "schema-events")) =
  [schemaChangeTable "app"; schemaChangeType "app"].
Proof.
  split_and!.
  - apply (proj1 (flush_hands_over_buffer (newEventDebouncer "schema-events"))).
    reflexivity.
  - apply (proj1 (proj2 (flush_hands_over_buffer
                           (set_events [otherFrame "a"] (newEventDebouncer "schema-events"))))).
    discriminate.
  - apply (proj2 (proj2 (proj2 (proj2 (flush_hands_over_buffer
                                         (newEventDebouncer "schema-events")))))
             sample_steps).
    reflexivity.
Defined.

(** C6. When producers call [debounce] at instants less than the debounce
    interval (one second) apart, the callback runs exactly once, one
    interval after the last call, with all buffered frames in arrival order
    (the first 1000 of those handed in).  Every call of [debounce] rearms
    the timer, also one whose frame is dropped. *)
Theorem burst_flushes_once nm calls t f :
  spaced_less eventDebounceTime (calls ++ [(t, f)]) →
  eventDebounceTime = 1000000000%Z ∧
  timed_batches (timed_run (calls ++ [(t, f)]) (newEventDebouncer nm)).2 =
    [((t + eventDebounceTime)%Z, take eventBufferSize (calls.*2 ++ [f]))] ∧
  (∀ e now f', timer (exec (debounce now f') e) = Some (now + eventDebounceTime)%Z).
Proof.
  intros Hsp. split_and!.
  - done.
  - assert (fold_left push (calls.*2 ++ [f]) [] ≠ []) as Hne.
    { destruct (calls.*2 ++ [f]) as [|f0 fs] eqn:Hfs; [by destruct calls|].
      cbn [fold_left]. apply fold_push_nonempty. unfold push.
      rewrite decide_True; [done|]. unfold eventBufferSize. simpl. lia. }
    rewrite timed_run_burst; [|done|done|done].
    cbn [events newEventDebouncer].
    rewrite fold_push_take by (simpl; lia).
    cbn [length app]. by rewrite Nat.sub_0_r.
  - intros e now f'. by destruct (debounce_push e now f') as (_ & -> & _).
Qed.

Lemma burst_flushes_once_witness :
  timed_batches
    (timed_run (sample_calls ++ [(900000000%Z, otherFrame "third")])
               (newEventDebouncer "node-events")).2 =
    [((900000000 + eventDebounceTime)%Z,
      take eventBufferSize (sample_calls.*2 ++ [otherFrame "third"]))].
Proof.
  apply (burst_flushes_once "node-events" sample_calls 900000000%Z (otherFrame "third")).
  unfold eventDebounceTime, Second. simpl. lia.
Defined.

(** ** Schema reconciler *)

(** C5. Every frame of a schema batch, whatever its variant, causes exactly
    one [clearSchema] of its keyspace, with no deduplication: a keyspace is
    invalidated as many times as frames mention it.  For a keyspace-level
    frame, and only for it, the invalidation is followed by the wait for
    schema agreement and then by one [KeyspaceChanged] notification that
    carries the frame's keyspace and change.  The session itself is left as
    it is. *)
Theorem schema_batch_invalidates_per_frame (frames : list frame) (s : Session) :
  effects (handleSchemaEvent frames) s = frames ≫= schema_calls ∧
  exec (handleSchemaEvent frames) s = s ∧
  (∀ ks, count_of (is_clear ks) (effects (handleSchemaEvent frames) s) =
         length (filter (λ f, frame_keyspace f = Some ks) frames)) ∧
  count_of is_await (effects (handleSchemaEvent frames) s) =
    length (omap keyspace_level frames) ∧
  keyspace_events (effects (handleSchemaEvent frames) s) = omap keyspace_level frames.
Proof.
  unfold effects, exec. rewrite handleSchemaEvent_run. cbn [fst snd].
  split_and!; [done|done| | |].
  - intros ks. apply schema_calls_clear.
  - apply schema_calls_await.
  - apply schema_calls_events.
Qed.

(** The scenario of the spec: a dropped keyspace and one of its tables. *)
Example schema_scenario (s : Session) :
  effects (handleSchemaEvent [schemaChangeKeyspace "DROPPED" "app"; schemaChangeTable "app"]) s =
    [ClearSchema "app"; AwaitSchemaAgreement;
     PolicyKeyspaceChanged {| Keyspace := "app"; Change := "DROPPED" |};
     ClearSchema "app"].
Proof. reflexivity. Qed.

(** ** Node reconciler and host transitions *)

Section node_claims.
Variable IP_String : IP → string.
Variable nodeUpDelay : HostInfo → Z.
Variable rangeOrder : gmap string nodeEvent → list (string * nodeEvent).
Hypothesis rangeOrder_perm : ∀ m, rangeOrder m ≡ₚ map_to_list m.

Implicit Types (s : Session) (frames : list frame) (a : string).

Lemma merged_for_last a frames :
  last_change IP_String a frames = change <$> merged_for IP_String a frames.
Proof.
  unfold last_change, merged_for.
  destruct (status_for IP_String a frames) as [|ev1 rest]; [done|].
  rewrite last_cons. by destruct (last rest).
Qed.

Lemma decision_cases c ev x :
  x ∈ decision IP_String c ev →
  DisableNodeStatusEvents c = false ∧ call_change x = change ev ∧
  call_addr x = IP_String (host ev) ∧ call_port x = port ev.
Proof.
  unfold decision. destruct (DisableNodeStatusEvents c); [by intros ?%elem_of_nil|].
  repeat case_decide; rewrite ?list_elem_of_singleton; try by intros ?%elem_of_nil.
  all: by intros ->.
Qed.

Lemma handler_calls_handleNodeEvent frames s :
  handler_calls (effects (handleNodeEvent IP_String nodeUpDelay rangeOrder frames) s) =
    rangeOrder (result (foldM (scan_frame IP_String) (false, ∅) frames) s).2
      ≫= (λ kf, decision IP_String (cfg s) kf.2).
Proof.
  destruct (handleNodeEvent_run IP_String nodeUpDelay rangeOrder frames s) as [-> _].
  destruct (foldM_scan_quiet IP_String frames (false, ∅) s) as (_ & Hq & _).
  rewrite !handler_calls_app, (quiet_entries_calls _ Hq).
  replace (handler_calls (if existsb is_topology frames && negb (DisableTopologyEvents (cfg s))
                          then [DebounceRingRefresh] else [])) with (@nil handlerCall)
    by (by destruct (_ && _)).
  cbn [app]. apply forM_dispatch_calls.
Qed.

Lemma scan_two_status c1 h1 p1 c2 h2 p2 s :
  IP_String h1 = IP_String h2 →
  (result (foldM (scan_frame IP_String) (false, ∅)
             [statusChangeEventFrame c1 h1 p1; statusChangeEventFrame c2 h2 p2]) s).2 =
    {[ IP_String h1 := {| change := c2; host := h1; port := p1 |} ]}.
Proof.
  intros Heq.
  change [statusChangeEventFrame c1 h1 p1; statusChangeEventFrame c2 h2 p2]
    with (([] ++ [statusChangeEventFrame c1 h1 p1]) ++ [statusChangeEventFrame c2 h2 p2]).
  rewrite !foldM_scan_snoc. cbn [foldM].
  unfold result. rewrite !scan_frame_status. cbn [fst snd ret].
  rewrite <- Heq, lookup_empty, lookup_insert_eq, insert_insert_eq, insert_empty.
  done.
Qed.

Lemma two_status_calls c1 h1 p1 c2 h2 p2 s :
  IP_String h1 = IP_String h2 →
  handler_calls
    (effects (handleNodeEvent IP_String nodeUpDelay rangeOrder
                [statusChangeEventFrame c1 h1 p1; statusChangeEventFrame c2 h2 p2]) s) =
    decision IP_String (cfg s) {| change := c2; host := h1; port := p1 |}.
Proof using rangeOrder_perm.
  intros Heq. rewrite handler_calls_handleNodeEvent, scan_two_status by done.
  pose proof (rangeOrder_perm {[ IP_String h1 := {| change := c2; host := h1; port := p1 |} ]})
    as Hp.
  rewrite map_to_list_singleton in Hp. apply Permutation_singleton_r in Hp.
  rewrite Hp. cbn [mbind list_bind snd]. by rewrite app_nil_r.
Qed.

(** C1. For every batch and every host address, [handleNodeEvent] calls
    the up or down handler at most once for that address, and the call it
    makes is the one for the change of the last status-change frame for that
    address in batch order.  In particular, with status events enabled, DOWN
    then UP for one host calls [handleNodeUp] only, and UP then DOWN calls
    [handleNodeDown] only. *)
Theorem status_last_write_wins frames a s :
  let tr := effects (handleNodeEvent IP_String nodeUpDelay rangeOrder frames) s in
  length (calls_for a tr) ≤ 1 ∧
  (∀ c, c ∈ calls_for a tr → last_change IP_String a frames = Some (call_change c)) ∧
  (DisableNodeStatusEvents (cfg s) = false →
     (last_change IP_String a frames = Some "UP" → ∃ p, calls_for a tr = [CallNodeUp a p]) ∧
     (last_change IP_String a frames = Some "DOWN" → ∃ p, calls_for a tr = [CallNodeDown a p])) ∧
  (∀ h p1 p2, DisableNodeStatusEvents (cfg s) = false →
     handler_calls
       (effects (handleNodeEvent IP_String nodeUpDelay rangeOrder
                   [statusChangeEventFrame "DOWN" h p1; statusChangeEventFrame "UP" h p2]) s) =
       [CallNodeUp (IP_String h) p1]) ∧
  (∀ h p1 p2, DisableNodeStatusEvents (cfg s) = false →
     handler_calls
       (effects (handleNodeEvent IP_String nodeUpDelay rangeOrder
                   [statusChangeEventFrame "UP" h p1; statusChangeEventFrame "DOWN" h p2]) s) =
       [CallNodeDown (IP_String h) p1]).
Proof using rangeOrder_perm.
  cbv zeta.
  rewrite (calls_for_handleNodeEvent IP_String nodeUpDelay rangeOrder rangeOrder_perm).
  rewrite merged_for_last.
  pose proof (merged_for_key IP_String a frames) as Hkey.
  destruct (merged_for IP_String a frames) as [ev|]; cbn [fmap option_fmap option_map].
  - specialize (Hkey ev eq_refl). split_and!.
    + unfold decision. destruct (DisableNodeStatusEvents (cfg s)); [simpl; lia|].
      repeat case_decide; simpl; lia.
    + intros c Hc. by destruct (decision_cases _ _ _ Hc) as (_ & -> & _).
    + intros Hen. unfold decision. rewrite Hen, Hkey.
      split; intros [= Hch]; rewrite Hch; eauto.
    + intros h p1 p2 Hen. rewrite two_status_calls by done.
      unfold decision. by rewrite Hen.
    + intros h p1 p2 Hen. rewrite two_status_calls by done.
      unfold decision. by rewrite Hen.
  - split_and!; [simpl; lia|by intros c ?%elem_of_nil|done| |].
    + intros h p1 p2 Hen. rewrite two_status_calls by done.
      unfold decision. by rewrite Hen.
    + intros h p1 p2 Hen. rewrite two_status_calls by done.
      unfold decision. by rewrite Hen.
Qed.

Lemma refresh_triggers_app prev (t1 t2 : list Effect) :
  refresh_triggers prev (t1 ++ t2) =
    refresh_triggers prev t1 ++ refresh_triggers (from_option Some prev (last t1)) t2.
Proof.
  revert prev. induction t1 as [|e t1 IH]; intros prev; [done|].
  cbn [app refresh_triggers]. rewrite IH, <- app_assoc. do 2 f_equal.
  rewrite last_cons. by destruct (last t1).
Qed.

(** The refreshes of one dispatch: one, right after the entry of
    [handleNodeUp], when the address is unknown; none otherwise. *)
Lemma dispatch_event_refreshes ev s1 s prev :
  ring s1 = ring s →
  Forall (λ before, ∃ e, before = Some e ∧ up_for_unknown s e)
         (refresh_triggers prev (effects (dispatch_event IP_String nodeUpDelay ev) s1)) ∧
  count_of is_refresh (effects (dispatch_event IP_String nodeUpDelay ev) s1) =
    length (List.filter (is_unknown_up s)
              (handler_calls (effects (dispatch_event IP_String nodeUpDelay ev) s1))).
Proof.
  intros Hring. rewrite dispatch_event_calls.
  unfold effects at 1 2. rewrite dispatch_event_run. unfold decision.
  destruct (decide (change ev = "UP")) as [Hup|Hup];
    [|destruct (decide (change ev = "DOWN")) as [Hdn|Hdn]];
    destruct (DisableNodeStatusEvents (cfg s1)); cbn [snd];
    try (split; [by repeat constructor|done]).
  - unfold effects. rewrite handleNodeUp_run. cbn [snd List.filter is_unknown_up].
    rewrite <- Hring.
    destruct (ring s1 !! IP_String (host ev)) as [p|] eqn:Hr.
    + rewrite bool_decide_eq_false_2 by done.
      destruct (filterHost (cfg s1) (hosts s1 p)); [split; [by repeat constructor|done]|].
      destruct (decide (nodeUpDelay (hosts s1 p) > 0)%Z);
        (split; [by repeat constructor|done]).
    + rewrite bool_decide_eq_true_2 by done. split; [|done].
      cbn. constructor; [|constructor]. eexists. split; [done|].
      exists (IP_String (host ev)), (port ev). split; [done|]. by rewrite <- Hring.
  - unfold effects. rewrite handleNodeDown_run.
    destruct (ring s1 !! IP_String (host ev)) as [p|]; cbn [snd];
      [|split; [by repeat constructor|done]].
    destruct (filterHost (cfg s1) (HostInfo_setState NodeDown (hosts s1 p)));
      (split; [by repeat constructor|done]).
Qed.

Lemma forM_dispatch_refreshes (l : list (string * nodeEvent)) s1 s prev :
  ring s1 = ring s →
  Forall (λ before, ∃ e, before = Some e ∧ up_for_unknown s e)
         (refresh_triggers prev
            (effects (forM_ l (λ kf, dispatch_event IP_String nodeUpDelay kf.2)) s1)) ∧
  count_of is_refresh
    (effects (forM_ l (λ kf, dispatch_event IP_String nodeUpDelay kf.2)) s1) =
    length (List.filter (is_unknown_up s)
              (handler_calls
                 (effects (forM_ l (λ kf, dispatch_event IP_String nodeUpDelay kf.2)) s1))).
Proof.
  revert s1 prev. induction l as [|[k ev] l IH]; intros s1 prev Hring.
  - split; [constructor|done].
  - cbn [forM_ snd]. rewrite effects_bind, refresh_triggers_app, handler_calls_app.
    rewrite count_of_app, List.filter_app, length_app.
    destruct (dispatch_event_refreshes ev s1 s prev Hring) as [Hf1 ->].
    destruct (dispatch_event_frame IP_String nodeUpDelay ev s1) as (_ & Hr & _).
    destruct (IH (exec (dispatch_event IP_String nodeUpDelay ev) s1)
                (from_option Some prev
                   (last (effects (dispatch_event IP_String nodeUpDelay ev) s1))))
      as [Hf2 ->]; [congruence|].
    split; [by apply Forall_app|done].
Qed.

(** C2. When a batch holds a topology-change frame and topology events are
    enabled, [handleNodeEvent] requests exactly one ring refresh for it, and
    does so before it dispatches any merged status event; when the batch
    holds none, or topology events are disabled, it requests none for it.
    The whole trace is accounted for: it splits into what happens before the
    first dispatch, where no handler is called and that one refresh, if any,
    is requested, and the dispatch loop, where every refresh request comes
    right after the entry of a [handleNodeUp] call for an address the ring
    does not know, one per such call.  So the refreshes of the whole trace
    are the one for the topology frames plus one per [handleNodeUp] call for
    an unknown address. *)
Theorem topology_refresh_precedes_dispatch frames s :
  ∃ pre post,
    effects (handleNodeEvent IP_String nodeUpDelay rangeOrder frames) s = pre ++ post ∧
    Forall (λ e, handler_call e = None ∧ is_dispatch_log e = false) pre ∧
    count_of is_refresh pre =
      (if existsb is_topology frames && negb (DisableTopologyEvents (cfg s))
       then 1 else 0) ∧
    (post = [] ∨ ∃ e rest, post = e :: rest ∧ is_dispatch_log e = true) ∧
    handler_calls post =
      handler_calls (effects (handleNodeEvent IP_String nodeUpDelay rangeOrder frames) s) ∧
    Forall (λ before, ∃ e, before = Some e ∧ up_for_unknown s e)
           (refresh_triggers None post) ∧
    count_of is_refresh post =
      length (List.filter (is_unknown_up s) (handler_calls post)) ∧
    count_of is_refresh
      (effects (handleNodeEvent IP_String nodeUpDelay rangeOrder frames) s) =
      (if existsb is_topology frames && negb (DisableTopologyEvents (cfg s))
       then 1 else 0) +
      length (List.filter (is_unknown_up s)
                (handler_calls
                   (effects (handleNodeEvent IP_String nodeUpDelay rangeOrder frames) s))).
Proof.
  destruct (handleNodeEvent_run IP_String nodeUpDelay rangeOrder frames s) as [Htr _].
  cbv zeta in Htr.
  destruct (foldM_scan_quiet IP_String frames (false, ∅) s) as (_ & Hq & _).
  set (l := rangeOrder (result (foldM (scan_frame IP_String) (false, ∅) frames) s).2) in *.
  destruct (forM_dispatch_refreshes l s s None eq_refl) as [Hbefore Hcount].
  assert (count_of is_refresh
            (effects (foldM (scan_frame IP_String) (false, ∅) frames) s) = 0) as Hscan.
  { clear Htr. induction Hq as [|e tr (_ & _ & He) _ IH]; [done|].
    unfold count_of in *. cbn [List.filter]. by rewrite He. }
  assert (handler_calls
            (effects (handleNodeEvent IP_String nodeUpDelay rangeOrder frames) s) =
          handler_calls
            (effects (forM_ l (λ kf, dispatch_event IP_String nodeUpDelay kf.2)) s))
    as Hcalls.
  { rewrite Htr, !handler_calls_app, (quiet_entries_calls _ Hq).
    by destruct (_ && _). }
  exists (effects (foldM (scan_frame IP_String) (false, ∅) frames) s ++
          (if existsb is_topology frames && negb (DisableTopologyEvents (cfg s))
           then [DebounceRingRefresh] else [])).
  eexists. split; [by rewrite Htr, <- app_assoc|].
  split_and!.
  - apply Forall_app. split.
    + eapply Forall_impl; [exact Hq|]. by intros e (? & ? & ?).
    + destruct (_ && _); by repeat constructor.
  - rewrite count_of_app, Hscan. by destruct (_ && _).
  - apply forM_dispatch_head.
  - by rewrite Hcalls.
  - exact Hbefore.
  - exact Hcount.
  - rewrite Hcalls, <- Hcount, Htr, !count_of_app, Hscan.
    by destruct (_ && _).
Qed.

(** C7, amended.  A status change for an address the ring does not know
    never fails.  For UP, [handleNodeUp] logs the event and requests a ring
    refresh; for DOWN, [handleNodeDown] logs the event and does nothing
    else: it requests no refresh.  Neither changes the session. *)
Theorem unknown_host_up_refreshes_down_is_noop s ip port :
  ring s !! IP_String ip = None →
  handleNodeUp IP_String nodeUpDelay ip port s =
    (tt, s,
     [Log LogLevelInfo "node is UP: %s:%d"
        [NewLogField "event_ip" (VString (IP_String ip));
         NewLogField "event_port" (VInt port)];
      DebounceRingRefresh]) ∧
  handleNodeDown IP_String ip port s =
    (tt, s,
     [Log LogLevelWarn "node is DOWN: %s:%d"
        [NewLogField "host_addr" (VString (IP_String ip));
         NewLogField "port" (VInt port)]]).
Proof.
  intros Hr. rewrite handleNodeUp_run, handleNodeDown_run. by rewrite Hr.
Qed.

(** C8. When the address of a DOWN event is in the ring, [handleNodeDown]
    sets the state of that host to DOWN whether or not the host filter
    rejects the host, and touches no other host.  After the warning it logs
    on entry, it notifies the policy with [HostDown] and asks the pool to
    remove the host by its identifier exactly when the filter accepts the
    host, and calls nothing else.  When the address is not in the ring the
    session is left as it is. *)
Theorem node_down_sets_state_then_filters s ip port :
  (∀ p, ring s !! IP_String ip = Some p →
     let s' := exec (handleNodeDown IP_String ip port) s in
     State (hosts s' p) = NodeDown ∧
     hosts s' p = HostInfo_setState NodeDown (hosts s p) ∧
     (∀ q, q ≠ p → hosts s' q = hosts s q) ∧
     ring s' = ring s ∧ cfg s' = cfg s ∧
     effects (handleNodeDown IP_String ip port) s =
       Log LogLevelWarn "node is DOWN: %s:%d"
         [NewLogField "host_addr" (VString (IP_String ip));
          NewLogField "port" (VInt port)] ::
       if filterHost (cfg s) (HostInfo_setState NodeDown (hosts s p)) then []
       else [PolicyHostDown p; PoolRemoveHost (HostID (hosts s p))]) ∧
  (ring s !! IP_String ip = None →
     exec (handleNodeDown IP_String ip port) s = s ∧
     effects (handleNodeDown IP_String ip port) s =
       [Log LogLevelWarn "node is DOWN: %s:%d"
          [NewLogField "host_addr" (VString (IP_String ip));
           NewLogField "port" (VInt port)]]).
Proof.
  split.
  - intros p Hr. cbv zeta. unfold exec, effects.
    rewrite handleNodeDown_run, Hr. cbn.
    split_and!; try done.
    + by rewrite decide_True.
    + by rewrite decide_True.
    + intros q Hq. by rewrite decide_False.
  - intros Hr. unfold exec, effects. by rewrite handleNodeDown_run, Hr.
Qed.

(** C9. [handleNodeUp] never changes a host record: it logs the event and
    then either requests a ring refresh (unknown address), or does nothing
    (host rejected by the filter), or waits for the settle delay, if any,
    asks the pool to add the host and tells the policy [AddHost].
    [handleNodeConnected] is what sets the state to UP; it then tells the
    policy [HostUp] exactly when the filter accepts the host.  No other
    handler ever makes a host UP: a host that is UP after [handleNodeEvent]
    or [handleNodeDown] was UP before, and [handleSchemaEvent] leaves the
    session as it is. *)
Theorem node_up_defers_state_change :
  (∀ s ip port,
     exec (handleNodeUp IP_String nodeUpDelay ip port) s = s ∧
     effects (handleNodeUp IP_String nodeUpDelay ip port) s =
       Log LogLevelInfo "node is UP: %s:%d"
         [NewLogField "event_ip" (VString (IP_String ip));
          NewLogField "event_port" (VInt port)] ::
       match ring s !! IP_String ip with
       | None => [DebounceRingRefresh]
       | Some p =>
           if filterHost (cfg s) (hosts s p) then []
           else (if decide (nodeUpDelay (hosts s p) > 0)%Z
                 then [Sleep (nodeUpDelay (hosts s p))] else [])
                ++ [PoolAddHost p; PolicyAddHost p]
       end) ∧
  (∀ s p,
     let s' := exec (handleNodeConnected p) s in
     State (hosts s' p) = NodeUp ∧
     s' = update_host p (HostInfo_setState NodeUp) s ∧
     effects (handleNodeConnected p) s =
       Log LogLevelDebug "connected to node: %s:%d (%s)"
         [NewLogField "host_addr" (VIP (ConnectAddress (hosts s p)));
          NewLogField "port" (VInt (Port (hosts s p)));
          NewLogField "host_id" (VString (HostID (hosts s p)))] ::
       if filterHost (cfg s) (HostInfo_setState NodeUp (hosts s p)) then []
       else [PolicyHostUp p]) ∧
  (∀ frames s q,
     State (hosts (exec (handleNodeEvent IP_String nodeUpDelay rangeOrder frames) s) q) = NodeUp →
     State (hosts s q) = NodeUp) ∧
  (∀ ip port s q,
     State (hosts (exec (handleNodeDown IP_String ip port) s) q) = NodeUp →
     State (hosts s q) = NodeUp) ∧
  (∀ frames s, exec (handleSchemaEvent frames) s = s).
Proof.
  split_and!.
  - intros s ip port. unfold exec, effects. by rewrite handleNodeUp_run.
  - intros s p. cbv zeta. unfold exec, effects. rewrite handleNodeConnected_run. cbn.
    by rewrite decide_True.
  - intros frames s q Hq.
    destruct (handleNodeEvent_run IP_String nodeUpDelay rangeOrder frames s) as [_ Hex].
    cbv zeta in Hex. rewrite Hex in Hq.
    destruct (forM_dispatch_frame IP_String nodeUpDelay
                (rangeOrder (result (foldM (scan_frame IP_String) (false, ∅) frames) s).2) s)
      as (_ & _ & Hu).
    by rewrite <- (Hu q Hq).
  - intros ip port s q Hq.
    destruct (handleNodeDown_frame IP_String ip port s) as (_ & _ & Hu).
    by rewrite <- (Hu q Hq).
  - intros frames s. unfold exec. by rewrite handleSchemaEvent_run.
Qed.

(** C10. When [handleNodeEvent] merges the status-change frames of one
    address, only the change of the merged record follows later frames: its
    host and port stay those of the first status-change frame for that
    address.  A handler call for the address is therefore made with the
    first frame's port, also when a later frame for the same address carries
    another port. *)
Theorem merged_event_keeps_first_endpoint frames a s :
  let m := (result (foldM (scan_frame IP_String) (false, ∅) frames) s).2 in
  let tr := effects (handleNodeEvent IP_String nodeUpDelay rangeOrder frames) s in
  m !! a =
    match status_for IP_String a frames with
    | [] => None
    | ev1 :: rest =>
        Some {| change := change (default ev1 (last rest));
                host := host ev1; port := port ev1 |}
    end ∧
  (∀ c, c ∈ calls_for a tr →
        ∃ ev1 rest, status_for IP_String a frames = ev1 :: rest ∧ call_port c = port ev1) ∧
  (∀ c1 h1 p1 c2 h2 p2, IP_String h1 = IP_String h2 →
     (result (foldM (scan_frame IP_String) (false, ∅)
                [statusChangeEventFrame c1 h1 p1; statusChangeEventFrame c2 h2 p2]) s).2 =
       {[ IP_String h1 := {| change := c2; host := h1; port := p1 |} ]} ∧
     handler_calls
       (effects (handleNodeEvent IP_String nodeUpDelay rangeOrder
                   [statusChangeEventFrame c1 h1 p1; statusChangeEventFrame c2 h2 p2]) s) =
       decision IP_String (cfg s) {| change := c2; host := h1; port := p1 |}).
Proof using rangeOrder_perm.
  cbv zeta. split_and!.
  - apply scan_lookup.
  - rewrite (calls_for_handleNodeEvent IP_String nodeUpDelay rangeOrder rangeOrder_perm).
    unfold merged_for.
    destruct (status_for IP_String a frames) as [|ev1 rest]; [by intros c ?%elem_of_nil|].
    intros c Hc. exists ev1, rest. split; [done|].
    by destruct (decision_cases _ _ _ Hc) as (_ & _ & _ & ->).
  - intros c1 h1 p1 c2 h2 p2 Heq. split.
    + by apply scan_two_status.
    + by apply two_status_calls.
Qed.
End node_claims.

(** ** The claims on sample data *)

Lemma status_last_write_wins_witness :
  length (calls_for "10.0.0.1"
            (effects (handleNodeEvent dotted (λ _, 0%Z) map_to_list sample_batch)
                     sample_session)) ≤ 1 ∧
  ∃ p, calls_for "10.0.0.1"
         (effects (handleNodeEvent dotted (λ _, 0%Z) map_to_list sample_batch)
                  sample_session) = [CallNodeUp "10.0.0.1" p].
Proof.
  pose proof (status_last_write_wins dotted (λ _, 0%Z) map_to_list
                (λ m, Permutation_refl (map_to_list m))
                sample_batch "10.0.0.1" sample_session) as (Hone & _ & Hlast & _).
  split; [exact Hone|].
  apply Hlast; [reflexivity|]. vm_compute. reflexivity.
Defined.

Lemma unknown_host_up_refreshes_down_is_noop_witness :
  effects (handleNodeUp dotted (λ _, 0%Z) ip_10_0_0_2 9042) sample_session =
    [Log LogLevelInfo "node is UP: %s:%d"
       [NewLogField "event_ip" (VString "10.0.0.2"); NewLogField "event_port" (VInt 9042)];
     DebounceRingRefresh] ∧
  effects (handleNodeDown dotted ip_10_0_0_2 9042) sample_session =
    [Log LogLevelWarn "node is DOWN: %s:%d"
       [NewLogField "host_addr" (VString "10.0.0.2"); NewLogField "port" (VInt 9042)]].
Proof.
  assert (ring sample_session !! dotted ip_10_0_0_2 = None) as Hr
    by (vm_compute; reflexivity).
  destruct (unknown_host_up_refreshes_down_is_noop dotted (λ _, 0%Z)
              sample_session ip_10_0_0_2 9042 Hr) as [Hup Hdown].
  unfold effects. rewrite Hup, Hdown. split; reflexivity.
Defined.

(** C7 as stated fails for DOWN: for an address the ring does not know,
    [handleNodeDown] requests no ring refresh. *)
Lemma unknown_host_down_requests_no_refresh :
  ring sample_session !! dotted ip_10_0_0_2 = None ∧
  effects (handleNodeDown dotted ip_10_0_0_2 9042) sample_session =
    [Log LogLevelWarn "node is DOWN: %s:%d"
       [NewLogField "host_addr" (VString "10.0.0.2"); NewLogField "port" (VInt 9042)]] ∧
  count_of is_refresh (effects (handleNodeDown dotted ip_10_0_0_2 9042) sample_session) = 0.
Proof. split_and!; vm_compute; reflexivity. Qed.

Lemma node_down_sets_state_then_filters_witness :
  State (hosts (exec (handleNodeDown dotted ip_10_0_0_1 9042) sample_session) 0) = NodeDown ∧
  effects (handleNodeDown dotted ip_10_0_0_1 9042) sample_session =
    [Log LogLevelWarn "node is DOWN: %s:%d"
       [NewLogField "host_addr" (VString "10.0.0.1"); NewLogField "port" (VInt 9042)];
     PolicyHostDown 0; PoolRemoveHost "host-1"].
Proof.
  assert (ring sample_session !! dotted ip_10_0_0_1 = Some 0) as Hr
    by (vm_compute; reflexivity).
  destruct (proj1 (node_down_sets_state_then_filters dotted sample_session ip_10_0_0_1 9042)
              0 Hr) as (Hst & _ & _ & _ & _ & Htr).
  split; [exact Hst|]. rewrite Htr. reflexivity.
Defined.

Lemma node_up_defers_state_change_witness :
  State (hosts sample_session 0) = NodeUp.
Proof.
  apply (proj1 (proj2 (proj2 (node_up_defers_state_change dotted (λ _, 0%Z) map_to_list)))
           [statusChangeEventFrame "UP" ip_10_0_0_1 9042] sample_session 0).
  vm_compute. reflexivity.
Defined.

Lemma merged_event_keeps_first_endpoint_witness :
  handler_calls
    (effects (handleNodeEvent dotted (λ _, 0%Z) map_to_list
                [statusChangeEventFrame "DOWN" ip_10_0_0_1 9042;
                 statusChangeEventFrame "UP" ip_10_0_0_1 9043]) sample_session) =
    [CallNodeUp "10.0.0.1" 9042].
Proof.
  pose proof (merged_event_keeps_first_endpoint dotted (λ _, 0%Z) map_to_list
                (λ m, Permutation_refl (map_to_list m))
                sample_batch "10.0.0.1" sample_session) as (_ & _ & Htwo).
  destruct (Htwo "DOWN" ip_10_0_0_1 9042%Z "UP" ip_10_0_0_1 9043%Z eq_refl) as [_ Hcalls].
  rewrite Hcalls. reflexivity.
Defined.

(** * Further properties *)

(** ** The debouncer in time *)

Section debouncer_more.
Implicit Types (e : eventDebouncer) (f : frame) (t : Z).

Lemma timed_run_fires t f rest e d :
  timer e = Some d → (d ≤ t)%Z →
  timed_run ((t, f) :: rest) e =
    let e1 := exec timer_expires e in
    let e2 := exec (debounce t f) e1 in
    let '(e3, tr3) := timed_run rest e2 in
    (e3, stamp d (effects timer_expires e) ++ stamp t (effects (debounce t f) e1) ++ tr3).
Proof.
  intros Ht Hd. cbn [timed_run]. unfold advance_to. rewrite Ht.
  by rewrite decide_True.
Qed.

Lemma timed_run_sparse_armed calls e f0 t0 :
  events e = [f0] → timer e = Some (t0 + eventDebounceTime)%Z →
  spaced_more eventDebounceTime ((t0, f0) :: calls) →
  timed_batches (timed_run calls e).2 =
    (λ c, ((c.1 + eventDebounceTime)%Z, [c.2])) <$> ((t0, f0) :: calls).
Proof.
  revert e f0 t0. induction calls as [|[t f] calls IH]; intros e f0 t0 Hev Htm Hsp.
  - cbn [timed_run fmap list_fmap fst snd].
    rewrite (quiesce_armed e _ Htm); rewrite Hev; done.
  - destruct Hsp as [Hlt Hsp]. cbn [fst] in Hlt.
    rewrite (timed_run_fires t f calls e _ Htm) by lia. cbv zeta.
    assert (events e ≠ []) as Hne by (by rewrite Hev).
    set (e1 := set_events [] (set_timer None e)).
    assert (exec timer_expires e = e1) as ->
      by (unfold exec; by rewrite (timer_expires_nonempty e Hne)).
    assert (effects timer_expires e = [GoCallback [f0]]) as ->
      by (unfold effects; by rewrite (timer_expires_nonempty e Hne), Hev).
    destruct (debounce_push e1 t f) as (Hev2 & Htm2 & _ & Hb).
    destruct (timed_run calls _) as [e3 tr3] eqn:Hrun.
    cbn [snd]. rewrite !timed_batches_app, !timed_batches_stamp, Hb.
    cbn [batches omap list_omap fmap list_fmap app fst snd].
    f_equal.
    change tr3 with ((e3, tr3).2). rewrite <- Hrun.
    apply IH; [|done|done].
    rewrite Hev2. unfold push, e1. cbn [events set_events length].
    rewrite decide_True; [done|]. unfold eventBufferSize. lia.
Qed.

Lemma untimed_stamp t (tr : list Effect) : untimed (stamp t tr) = tr.
Proof.
  unfold untimed, stamp. rewrite <- list_fmap_compose.
  induction tr as [|x tr IH]; [done|]. cbn. by rewrite IH.
Qed.

Lemma untimed_app (a b : list (Z * Effect)) : untimed (a ++ b) = untimed a ++ untimed b.
Proof. apply fmap_app. Qed.

Lemma advance_to_summary t e :
  concat (batches (untimed (advance_to t e).2)) ++ events (advance_to t e).1 = events e ∧
  dropped (untimed (advance_to t e).2) = [].
Proof.
  unfold advance_to. destruct (timer e) as [d|] eqn:Ht; [|done].
  case_decide; [|done].
  cbn [fst snd]. rewrite untimed_stamp.
  destruct (decide (events e = [])) as [He|He]; unfold exec, effects.
  - rewrite timer_expires_empty by done. cbn. by rewrite He.
  - rewrite timer_expires_nonempty by done. cbn. by rewrite !app_nil_r.
Qed.

Lemma batches_app (a b : list Effect) : batches (a ++ b) = batches a ++ batches b.
Proof. apply omap_app. Qed.

Lemma dropped_app (a b : list Effect) : dropped (a ++ b) = dropped a ++ dropped b.
Proof. apply omap_app. Qed.

Lemma debounce_summary e t f :
  batches (effects (debounce t f) e) = [] ∧
  is_Some (timer (exec (debounce t f) e)) ∧
  (length (events e) < eventBufferSize →
     events (exec (debounce t f) e) = events e ++ [f] ∧
     dropped (effects (debounce t f) e) = []) ∧
  (¬ length (events e) < eventBufferSize →
     events (exec (debounce t f) e) = events e ∧
     dropped (effects (debounce t f) e) = [f]).
Proof.
  unfold exec, effects.
  destruct (decide (length (events e) < eventBufferSize)) as [Hlt|Hge].
  - rewrite debounce_room by done. cbn. by split_and!.
  - rewrite debounce_full by done. cbn. by split_and!.
Qed.

Lemma timed_run_accounting calls e :
  (events e ≠ [] → is_Some (timer e)) →
  events (timed_run calls e).1 = [] ∧
  timer (timed_run calls e).1 = None ∧
  events e ++ calls.*2 ≡ₚ
    concat (batches (untimed (timed_run calls e).2)) ++
    dropped (untimed (timed_run calls e).2) ∧
  (length (events e) + length calls ≤ eventBufferSize →
   concat (batches (untimed (timed_run calls e).2)) = events e ++ calls.*2 ∧
   dropped (untimed (timed_run calls e).2) = []).
Proof.
  revert e. induction calls as [|[t f] calls IH]; intros e Hinv.
  - cbn [timed_run]. unfold quiesce.
    destruct (timer e) as [d|] eqn:Ht.
    + cbn [fst snd]. rewrite untimed_stamp.
      destruct (decide (events e = [])) as [He|He]; unfold exec, effects.
      * rewrite timer_expires_empty by done. cbn. by rewrite He.
      * rewrite timer_expires_nonempty by done. cbn. by rewrite !app_nil_r.
    + cbn [fst snd]. destruct (events e) as [|f0 l] eqn:He; [done|].
      destruct Hinv as [? [=]]. done.
  - cbn [timed_run]. change (((t, f) :: calls).*2) with (f :: calls.*2).
    destruct (advance_to_summary t e) as (Hdel & Hdr).
    destruct (advance_to t e) as [e1 tr1]. cbn [fst snd] in Hdel, Hdr.
    destruct (debounce_summary e1 t f) as (Hb2 & Htm2 & Hroom & Hfull).
    specialize (IH (exec (debounce t f) e1)).
    destruct (timed_run calls (exec (debounce t f) e1)) as [e3 tr3].
    cbn [fst snd] in *.
    destruct IH as (IH1 & IH2 & IH3 & IH4); [done|].
    rewrite !untimed_app, untimed_stamp, !batches_app, !dropped_app, !concat_app.
    rewrite Hb2, Hdr. cbn [concat app].
    rewrite <- Hdel. clear Hdel.
    split_and!; [done|done| |].
    + destruct (decide (length (events e1) < eventBufferSize)) as [Hlt|Hge].
      * destruct (Hroom Hlt) as [Hev ->]. rewrite Hev in IH3. cbn [app].
        rewrite <- !app_assoc. apply Permutation_app_head.
        rewrite <- IH3. by rewrite <- app_assoc.
      * destruct (Hfull Hge) as [Hev ->]. rewrite Hev in IH3. cbn [app].
        rewrite <- !app_assoc. apply Permutation_app_head.
        rewrite <- !Permutation_middle. apply Permutation_skip.
        by rewrite <- IH3.
    + rewrite length_app. cbn [length]. intros Hlen.
      destruct Hroom as [Hev ->]; [lia|]. rewrite Hev in IH4.
      destruct IH4 as [-> ->]; [rewrite length_app; cbn [length]; lia|].
      by rewrite <- !app_assoc.
Qed.
End debouncer_more.

(** X1. When producers call [debounce] at instants more than the debounce
    interval apart, every call gets a flush of its own: the callback runs
    once per call, one interval after it, with that call's frame alone. *)
Theorem sparse_calls_flush_one_by_one nm calls :
  spaced_more eventDebounceTime calls →
  timed_batches (timed_run calls (newEventDebouncer nm)).2 =
    (λ c, ((c.1 + eventDebounceTime)%Z, [c.2])) <$> calls.
Proof.
  destruct calls as [|[t f] calls]; [done|]. intros Hsp.
  cbn [timed_run]. rewrite advance_to_quiet by done.
  destruct (debounce_push (newEventDebouncer nm) t f) as (Hev & Htm & _ & Hb).
  destruct (timed_run calls _) as [e3 tr3] eqn:Hrun.
  cbn [snd app]. rewrite timed_batches_app, timed_batches_stamp, Hb.
  cbn [fmap list_fmap app].
  change tr3 with ((e3, tr3).2). rewrite <- Hrun.
  apply timed_run_sparse_armed; [|done|done].
  rewrite Hev. unfold push. cbn [events newEventDebouncer length].
  rewrite decide_True; [done|]. unfold eventBufferSize. lia.
Qed.

Lemma sparse_calls_flush_one_by_one_witness :
  timed_batches (timed_run sample_sparse_calls (newEventDebouncer "schema")).2 =
    [(1000000000%Z, [schemaChangeTable "app"]);
     (2500000000%Z, [schemaChangeType "app"])].
Proof.
  rewrite (sparse_calls_flush_one_by_one "schema" sample_sparse_calls).
  - reflexivity.
  - unfold eventDebounceTime, Second. simpl. lia.
Defined.

(** X2. Whatever the instants at which producers call [debounce] on a new
    debouncer, once the last timer has expired nothing is pending and the
    timer is stopped: every frame handed in was either delivered to the
    callback or dropped with a warning (the two together are the frames
    handed in, up to order).  With at most 1000 calls nothing is dropped and
    the batches, one after the other, are the frames in arrival order. *)
Theorem timed_delivery_is_complete nm calls :
  let r := timed_run calls (newEventDebouncer nm) in
  events r.1 = [] ∧ timer r.1 = None ∧
  calls.*2 ≡ₚ concat (batches (untimed r.2)) ++ dropped (untimed r.2) ∧
  (length calls ≤ eventBufferSize →
   concat (batches (untimed r.2)) = calls.*2 ∧ dropped (untimed r.2) = []).
Proof.
  cbv zeta.
  destruct (timed_run_accounting calls (newEventDebouncer nm)) as (H1 & H2 & H3 & H4);
    [done|].
  split_and!; [done|done|done|]. intros Hlen. by apply H4.
Qed.

Lemma timed_delivery_is_complete_witness :
  concat (batches (untimed (timed_run sample_sparse_calls (newEventDebouncer "schema")).2)) =
    [schemaChangeTable "app"; schemaChangeType "app"].
Proof.
  apply (proj2 (proj2 (proj2 (timed_delivery_is_complete "schema" sample_sparse_calls)))).
  unfold eventBufferSize. simpl. lia.
Defined.

(** ** The event classifier *)

Section classifier_facts.
Variable frame_String : frame → string.
Variable frame_typeName : frame → string.

Implicit Types (s : eventDebouncers) (f : frame).

Lemma batches_from_tag o o' (tr : list Effect) :
  batches_from o ((λ e, (o', e)) <$> tr) = if decide (o' = o) then batches tr else [].
Proof.
  unfold batches_from, batches.
  induction tr as [|x tr IH]; [by case_decide|].
  cbn [fmap list_fmap omap list_omap]. rewrite IH.
  destruct x; try done. by case_decide.
Qed.

Lemma batches_from_app o (a b : list (Origin * Effect)) :
  batches_from o (a ++ b) = batches_from o a ++ batches_from o b.
Proof. apply omap_app. Qed.

(** What [handleEvent] does, by the kind of its input. *)
Lemma handleEvent_cases now parsed s :
  let r := handleEvent frame_String frame_typeName now parsed s in
  (∃ f, parsed = inr f ∧ is_schema_frame f = true ∧
        schemaEvents r.1 = exec (debounce now f) (schemaEvents s) ∧
        nodeEvents r.1 = nodeEvents s) ∨
  (∃ f, parsed = inr f ∧ is_node_frame f = true ∧
        nodeEvents r.1 = exec (debounce now f) (nodeEvents s) ∧
        schemaEvents r.1 = schemaEvents s) ∨
  ((∀ f, parsed = inr f → is_schema_frame f = false ∧ is_node_frame f = false) ∧
   r.1 = s).
Proof.
  cbv zeta. destruct parsed as [err|f]; [right; right; by split|].
  destruct f; cbn;
    first [left; by eexists; split_and!
          |right; left; by eexists; split_and!
          |right; right; split; [by intros ? [= <-]|done]].
Qed.

Lemma handleEvent_no_batches now parsed s o :
  batches_from o (handleEvent frame_String frame_typeName now parsed s).2 = [].
Proof.
  destruct parsed as [err|f]; [done|].
  destruct f; cbn [handleEvent on_schemaEvents on_nodeEvents snd]; try done.
  all: change (batches_from o (?x :: ?l)) with (batches_from o l).
  all: rewrite batches_from_tag; case_decide; try done.
  all: match goal with
       | |- batches (effects (debounce ?t ?f) ?e) = [] =>
           by destruct (debounce_push e t f) as (_ & _ & _ & ->)
       end.
Qed.

Lemma push_Forall (P : frame → Prop) buf f :
  Forall P buf → P f → Forall P (push buf f).
Proof.
  intros Hb Hf. unfold push. case_decide; [|done].
  apply Forall_app. split; [done|]. by constructor.
Qed.

Lemma handleEvent_well_sorted now parsed s :
  well_sorted s → well_sorted (handleEvent frame_String frame_typeName now parsed s).1.
Proof.
  intros [Hs Hn].
  destruct (handleEvent_cases now parsed s)
    as [(f & _ & Hf & He & He')|[(f & _ & Hf & He & He')|[_ He]]];
    cbv zeta in *; unfold well_sorted.
  - rewrite He, He'. split; [|done].
    destruct (debounce_push (schemaEvents s) now f) as (-> & _).
    by apply push_Forall.
  - rewrite He, He'. split; [done|].
    destruct (debounce_push (nodeEvents s) now f) as (-> & _).
    by apply push_Forall.
  - by rewrite He.
Qed.

Lemma timer_expires_batch (e : eventDebouncer) :
  events (exec timer_expires e) = [] ∧
  (batches (effects timer_expires e) = [] ∨
   events e ≠ [] ∧ batches (effects timer_expires e) = [events e]).
Proof.
  destruct (decide (events e = [])) as [He|He]; unfold exec, effects.
  - rewrite timer_expires_empty by done. cbn. auto.
  - rewrite timer_expires_nonempty by done. cbn. auto.
Qed.

(** One step keeps the buffers sorted and hands each callback batches of
    its own kind only, none of them empty. *)
Lemma pipeline_step_sorted st s :
  well_sorted s →
  let r := pipeline_step frame_String frame_typeName st s in
  well_sorted r.1 ∧
  Forall (λ b, b ≠ [] ∧ Forall (λ f, is_schema_frame f = true) b)
         (batches_from FromSchemaEvents r.2) ∧
  Forall (λ b, b ≠ [] ∧ Forall (λ f, is_node_frame f = true) b)
         (batches_from FromNodeEvents r.2) ∧
  batches_from FromSession r.2 = [].
Proof.
  intros Hws. cbv zeta. destruct st as [now parsed| |]; cbn [pipeline_step].
  - rewrite !handleEvent_no_batches. split_and!; [|done..].
    by apply handleEvent_well_sorted.
  - destruct Hws as [Hs Hn].
    destruct (timer_expires_batch (schemaEvents s)) as (Hev & Hb).
    unfold on_schemaEvents, well_sorted. cbn [fst snd schemaEvents nodeEvents].
    rewrite !batches_from_tag, Hev.
    repeat case_decide; try done.
    split_and!; try done.
    destruct Hb as [->|[Hne ->]]; [done|]. by repeat constructor.
  - destruct Hws as [Hs Hn].
    destruct (timer_expires_batch (nodeEvents s)) as (Hev & Hb).
    unfold on_nodeEvents, well_sorted. cbn [fst snd schemaEvents nodeEvents].
    rewrite !batches_from_tag, Hev.
    repeat case_decide; try done.
    split_and!; try done.
    destruct Hb as [->|[Hne ->]]; [done|]. by repeat constructor.
Qed.

Lemma run_pipeline_sorted l s :
  well_sorted s →
  let r := run_pipeline frame_String frame_typeName l s in
  well_sorted r.1 ∧
  Forall (λ b, b ≠ [] ∧ Forall (λ f, is_schema_frame f = true) b)
         (batches_from FromSchemaEvents r.2) ∧
  Forall (λ b, b ≠ [] ∧ Forall (λ f, is_node_frame f = true) b)
         (batches_from FromNodeEvents r.2) ∧
  batches_from FromSession r.2 = [].
Proof.
  revert s. induction l as [|st l IH]; intros s Hws; cbv zeta.
  - by split_and!.
  - cbn [run_pipeline].
    destruct (pipeline_step_sorted st s Hws) as (Hws1 & Hs1 & Hn1 & Hz1).
    cbv zeta in *.
    destruct (pipeline_step frame_String frame_typeName st s) as [s1 tr1].
    cbn [fst snd] in *.
    destruct (IH s1 Hws1) as (Hws2 & Hs2 & Hn2 & Hz2). cbv zeta in *.
    destruct (run_pipeline frame_String frame_typeName l s1) as [s2 tr2].
    cbn [fst snd] in *. rewrite !batches_from_app, Hz1, Hz2.
    split_and!; [done| | |done]; by apply Forall_app.
Qed.

(** *** Arrivals only *)

Lemma arrived_cons P tp (inputs : list (Z * (string + frame))) :
  arrived P (tp :: inputs) = arrived P [tp] ++ arrived P inputs ∧
  arrival_instants P (tp :: inputs) = arrival_instants P [tp] ++ arrival_instants P inputs.
Proof.
  unfold arrived, arrival_instants, parsed_frames.
  destruct tp as [t [err|f]]; cbn; [done|]. by destruct (P f).
Qed.

Lemma arrives_once now parsed s :
  let r := handleEvent frame_String frame_typeName now parsed s in
  events (schemaEvents r.1) =
    fold_left push (arrived is_schema_frame [(now, parsed)]) (events (schemaEvents s)) ∧
  events (nodeEvents r.1) =
    fold_left push (arrived is_node_frame [(now, parsed)]) (events (nodeEvents s)) ∧
  timer (schemaEvents r.1) =
    from_option (λ t, Some (t + eventDebounceTime)%Z) (timer (schemaEvents s))
      (last (arrival_instants is_schema_frame [(now, parsed)])) ∧
  timer (nodeEvents r.1) =
    from_option (λ t, Some (t + eventDebounceTime)%Z) (timer (nodeEvents s))
      (last (arrival_instants is_node_frame [(now, parsed)])).
Proof.
  cbv zeta. destruct parsed as [err|f]; [done|].
  destruct f; cbn; try done.
  all: match goal with
       | |- context [exec (debounce ?t ?f) ?e] =>
           by destruct (debounce_push e t f) as (-> & -> & _)
       end.
Qed.

Lemma run_arrivals (inputs : list (Z * (string + frame))) s :
  let r := run_pipeline frame_String frame_typeName
             ((λ tp, Arrives tp.1 tp.2) <$> inputs) s in
  events (schemaEvents r.1) =
    fold_left push (arrived is_schema_frame inputs) (events (schemaEvents s)) ∧
  events (nodeEvents r.1) =
    fold_left push (arrived is_node_frame inputs) (events (nodeEvents s)) ∧
  timer (schemaEvents r.1) =
    from_option (λ t, Some (t + eventDebounceTime)%Z) (timer (schemaEvents s))
      (last (arrival_instants is_schema_frame inputs)) ∧
  timer (nodeEvents r.1) =
    from_option (λ t, Some (t + eventDebounceTime)%Z) (timer (nodeEvents s))
      (last (arrival_instants is_node_frame inputs)).
Proof.
  revert s. induction inputs as [|[now parsed] inputs IH]; intros s; cbv zeta; [done|].
  cbn [fmap list_fmap run_pipeline pipeline_step fst snd].
  destruct (arrives_once now parsed s) as (H1 & H2 & H3 & H4). cbv zeta in *.
  destruct (handleEvent frame_String frame_typeName now parsed s) as [s1 tr1].
  cbn [fst snd] in *.
  destruct (IH s1) as (I1 & I2 & I3 & I4). cbv zeta in *.
  destruct (run_pipeline _ _ _ s1) as [s2 tr2]. cbn [fst snd] in *.
  destruct (arrived_cons is_schema_frame (now, parsed) inputs) as [-> ->].
  destruct (arrived_cons is_node_frame (now, parsed) inputs) as [-> ->].
  rewrite !fold_left_app, !last_app, I1, I2, I3, I4, H1, H2, H3, H4.
  split_and!; try done.
  - by destruct (last (arrival_instants is_schema_frame inputs)).
  - by destruct (last (arrival_instants is_node_frame inputs)).
Qed.

Lemma schema_batch_all_cleared (b : list frame) (s : Session) :
  Forall (λ f, is_schema_frame f = true) b →
  count_of is_clear_any (effects (handleSchemaEvent b) s) = length b.
Proof.
  intros Hb. unfold effects. rewrite handleSchemaEvent_run. cbn [snd].
  induction Hb as [|f b Hf _ IH]; [done|].
  cbn [mbind list_bind length]. rewrite count_of_app, IH.
  by destruct f.
Qed.

(** X4. However event frames arrive and timers expire, starting from new
    debouncers, [handleEvent] keeps the two kinds apart: the schema
    debouncer buffers schema-change frames only and the node debouncer
    topology- and status-change frames only, every batch a callback is
    handed is non-empty and of its debouncer's kind, and the session itself
    never hands out a batch. *)
Theorem classifier_keeps_kinds_apart (l : list pipelineStep) :
  let r := run_pipeline frame_String frame_typeName l new_eventDebouncers in
  Forall (λ f, is_schema_frame f = true) (events (schemaEvents r.1)) ∧
  Forall (λ f, is_node_frame f = true) (events (nodeEvents r.1)) ∧
  Forall (λ b, b ≠ [] ∧ Forall (λ f, is_schema_frame f = true) b)
         (batches_from FromSchemaEvents r.2) ∧
  Forall (λ b, b ≠ [] ∧ Forall (λ f, is_node_frame f = true) b)
         (batches_from FromNodeEvents r.2) ∧
  batches_from FromSession r.2 = [].
Proof.
  cbv zeta.
  destruct (run_pipeline_sorted l new_eventDebouncers) as ([H1 H2] & H3 & H4 & H5).
  - split; constructor.
  - by split_and!.
Qed.

(** X5. After a series of arrivals and no timer expiry, each debouncer of
    a new session holds the frames of its own kind among those that parsed,
    in arrival order and cut at 1000; frames that failed to parse or are of
    another variant are in neither.  Each debouncer's timer is armed one
    interval after the last arrival of its own kind, and is still stopped
    when none arrived: frames of one kind do not postpone the flush of the
    other. *)
Theorem arrivals_fill_own_buffer (inputs : list (Z * (string + frame))) :
  let r := run_pipeline frame_String frame_typeName
             ((λ tp, Arrives tp.1 tp.2) <$> inputs) new_eventDebouncers in
  events (schemaEvents r.1) = take eventBufferSize (arrived is_schema_frame inputs) ∧
  events (nodeEvents r.1) = take eventBufferSize (arrived is_node_frame inputs) ∧
  timer (schemaEvents r.1) =
    (λ t, (t + eventDebounceTime)%Z) <$> last (arrival_instants is_schema_frame inputs) ∧
  timer (nodeEvents r.1) =
    (λ t, (t + eventDebounceTime)%Z) <$> last (arrival_instants is_node_frame inputs).
Proof.
  cbv zeta.
  destruct (run_arrivals inputs new_eventDebouncers) as (-> & -> & -> & ->).
  cbn [new_eventDebouncers schemaEvents nodeEvents newEventDebouncer events timer].
  rewrite !fold_push_take by (simpl; lia). cbn [length app].
  rewrite Nat.sub_0_r. by split_and!.
Qed.

(** X6. No frame of a batch that reaches [handleSchemaEvent] through the
    classifier and the schema debouncer is ignored: the handler invalidates
    cached schema as many times as the batch has frames. *)
Theorem pipeline_schema_batches_fully_handled (l : list pipelineStep)
    (b : list frame) (s : Session) :
  b ∈ batches_from FromSchemaEvents
        (run_pipeline frame_String frame_typeName l new_eventDebouncers).2 →
  count_of is_clear_any (effects (handleSchemaEvent b) s) = length b.
Proof.
  intros Hb. apply schema_batch_all_cleared.
  destruct (run_pipeline_sorted l new_eventDebouncers) as (_ & H3 & _).
  - split; constructor.
  - cbv zeta in H3. rewrite Forall_forall in H3. by destruct (H3 b Hb).
Qed.
End classifier_facts.

Lemma pipeline_schema_batches_fully_handled_witness :
  count_of is_clear_any
    (effects (handleSchemaEvent [schemaChangeKeyspace "DROPPED" "app"; schemaChangeTable "app"])
             sample_session) = 2.
Proof.
  apply (pipeline_schema_batches_fully_handled (λ _, "frame") (λ _, "type") sample_pipeline
           [schemaChangeKeyspace "DROPPED" "app"; schemaChangeTable "app"] sample_session).
  vm_compute. left.
Defined.

(** ** The node reconciler: final state and quiet runs *)

Section node_more.
Variable IP_String : IP → string.
Variable nodeUpDelay : HostInfo → Z.
Variable rangeOrder : gmap string nodeEvent → list (string * nodeEvent).
Hypothesis rangeOrder_perm : ∀ m, rangeOrder m ≡ₚ map_to_list m.

Implicit Types (s : Session) (frames : list frame) (a : string) (ev : nodeEvent).

(** One dispatch sets [q] DOWN exactly when status events are enabled, the
    change is DOWN and the address of the event points to [q]. *)
Lemma dispatch_event_hosts ev s q :
  let s1 := exec (dispatch_event IP_String nodeUpDelay ev) s in
  let hit := DisableNodeStatusEvents (cfg s) = false ∧ change ev = "DOWN" ∧
             ring s !! IP_String (host ev) = Some q in
  (hit → hosts s1 q = HostInfo_setState NodeDown (hosts s q)) ∧
  (¬ hit → hosts s1 q = hosts s q).
Proof.
  cbv zeta. unfold exec. rewrite dispatch_event_run.
  destruct (decide (change ev = "UP")) as [Hup|Hup].
  { destruct (DisableNodeStatusEvents (cfg s)); cbn [fst snd];
      (split; [intros (_ & Hd & _); congruence|done]). }
  destruct (decide (change ev = "DOWN")) as [Hdn|Hdn]; [|by split; [intros (_ & ? & _)|]].
  destruct (DisableNodeStatusEvents (cfg s)); cbn [fst snd];
    [by split; [intros (? & _)|]|].
  fold (exec (handleNodeDown IP_String (host ev) (port ev)) s).
  unfold exec. rewrite handleNodeDown_run.
  destruct (ring s !! IP_String (host ev)) as [p|]; cbn [fst snd update_host hosts].
  - case_decide as Hq.
    + subst q. split; [done|]. intros Hn. by destruct Hn.
    + split; [intros (_ & _ & [= ->]); done|done].
  - by split; [intros (_ & _ & ?)|].
Qed.

Lemma forM_dispatch_hosts (l : list (string * nodeEvent)) s q :
  let s' := exec (forM_ l (λ kf, dispatch_event IP_String nodeUpDelay kf.2)) s in
  let hit := DisableNodeStatusEvents (cfg s) = false ∧
             ∃ k ev, (k, ev) ∈ l ∧ change ev = "DOWN" ∧
                     ring s !! IP_String (host ev) = Some q in
  (hit → hosts s' q = HostInfo_setState NodeDown (hosts s q)) ∧
  (¬ hit → hosts s' q = hosts s q) ∧
  (hosts s' q = hosts s q ∨ hosts s' q = HostInfo_setState NodeDown (hosts s q)).
Proof.
  revert s. induction l as [|[k ev] l IH]; intros s; cbv zeta.
  { split_and!; [|done|by left]. by intros (_ & ? & ? & ?%elem_of_nil & _). }
  cbn [forM_ snd]. rewrite exec_bind.
  destruct (dispatch_event_frame IP_String nodeUpDelay ev s) as (Hc & Hr & _).
  destruct (dispatch_event_hosts ev s q) as [Hhit Hmiss]. cbv zeta in Hhit, Hmiss.
  set (s1 := exec (dispatch_event IP_String nodeUpDelay ev) s) in *.
  destruct (IH s1) as (IHhit & IHmiss & IHany). cbv zeta in IHhit, IHmiss, IHany.
  rewrite Hc, Hr in IHhit, IHmiss.
  assert (hosts s1 q = hosts s q ∨ hosts s1 q = HostInfo_setState NodeDown (hosts s q))
    as Hany1.
  { destruct (DisableNodeStatusEvents (cfg s)) eqn:Hen;
      [left; apply Hmiss; by intros (? & _)|].
    destruct (decide (change ev = "DOWN")) as [Hd|Hd];
      [|left; apply Hmiss; by intros (_ & ? & _)].
    destruct (decide (ring s !! IP_String (host ev) = Some q)) as [Hq|Hq];
      [right; by apply Hhit|left; apply Hmiss; by intros (_ & _ & ?)]. }
  split_and!.
  - intros (Hen & k' & ev' & Hin & Hd & Hq).
    apply elem_of_cons in Hin as [[= -> ->]|Hin].
    + rewrite Hhit in * by done.
      by destruct IHany as [->| ->].
    + rewrite IHhit by eauto 8.
      by destruct Hany1 as [->| ->].
  - intros Hno. rewrite IHmiss.
    + apply Hmiss. intros (Hen & Hd & Hq). apply Hno. split; [done|].
      exists k, ev. split_and!; [by left|done..].
    + intros (Hen & k' & ev' & Hin & Hd & Hq). apply Hno. split; [done|].
      exists k', ev'. split_and!; [by right|done..].
  - destruct IHany as [->| ->]; [done|].
    right. by destruct Hany1 as [->| ->].
Qed.

Lemma goes_down_entries frames s q :
  goes_down IP_String s frames q ↔
  DisableNodeStatusEvents (cfg s) = false ∧
  ∃ k ev,
    (k, ev) ∈ rangeOrder (result (foldM (scan_frame IP_String) (false, ∅) frames) s).2 ∧
    change ev = "DOWN" ∧ ring s !! IP_String (host ev) = Some q.
Proof using rangeOrder_perm.
  unfold goes_down. split; intros (Hen & Hex); (split; [done|]).
  - destruct Hex as (a & Hr & Hl). rewrite merged_for_last in Hl.
    destruct (merged_for IP_String a frames) as [ev|] eqn:Hm; [|done].
    injection Hl as Hd. exists a, ev.
    rewrite (rangeOrder_entries rangeOrder rangeOrder_perm), scan_lookup.
    split_and!; [done..|]. by rewrite (merged_for_key _ _ _ _ Hm).
  - destruct Hex as (k & ev & Hin & Hd & Hr).
    rewrite (rangeOrder_entries rangeOrder rangeOrder_perm), scan_lookup in Hin.
    pose proof (merged_for_key _ _ _ _ Hin) as Hk. exists k.
    split; [by rewrite <- Hk|]. by rewrite merged_for_last, Hin, <- Hd.
Qed.

(** *** Runs that reach neither pool nor policy *)

Lemma foldM_scan_logs frames acc s :
  Forall (λ e, is_log e = true) (effects (foldM (scan_frame IP_String) acc frames) s).
Proof.
  revert acc. induction frames as [|f frames IH]; intros acc; [constructor|].
  cbn [foldM]. rewrite effects_bind.
  destruct (scan_frame_quiet IP_String acc f s) as (-> & _).
  apply Forall_app. split; [|apply IH].
  unfold effects.
  destruct f as [| | | | |c h p|c h p|];
    try (rewrite scan_frame_other by done; constructor).
  - rewrite scan_frame_topology. by repeat constructor.
  - rewrite scan_frame_status. constructor.
Qed.

Lemma dispatch_event_disabled ev s :
  DisableNodeStatusEvents (cfg s) = true →
  dispatch_event IP_String nodeUpDelay ev s = (tt, s, [dispatch_log IP_String ev]).
Proof.
  intros Hd. rewrite dispatch_event_run, Hd. by repeat case_decide.
Qed.

Lemma forM_dispatch_disabled (l : list (string * nodeEvent)) s :
  DisableNodeStatusEvents (cfg s) = true →
  forM_ l (λ kf, dispatch_event IP_String nodeUpDelay kf.2) s =
    (tt, s, (λ kf, dispatch_log IP_String kf.2) <$> l).
Proof.
  intros Hd. induction l as [|[k ev] l IH]; [done|].
  cbn [forM_ snd fmap list_fmap]. unfold bind.
  by rewrite dispatch_event_disabled, IH.
Qed.

Lemma dispatch_event_denied ev s :
  (∀ h, filterHost (cfg s) h = true) →
  Forall (λ e, no_pool_or_policy e = true)
         (effects (dispatch_event IP_String nodeUpDelay ev) s).
Proof.
  intros Hdeny. unfold effects at 1. rewrite dispatch_event_run.
  repeat case_decide; destruct (DisableNodeStatusEvents (cfg s)); cbn [snd];
    try by repeat constructor.
  - constructor; [done|]. unfold effects. rewrite handleNodeUp_run. cbn [snd].
    destruct (ring s !! IP_String (host ev)) as [p|]; [|by repeat constructor].
    rewrite Hdeny. by repeat constructor.
  - constructor; [done|]. unfold effects. rewrite handleNodeDown_run.
    destruct (ring s !! IP_String (host ev)) as [p|]; cbn [snd];
      [|by repeat constructor].
    rewrite Hdeny. by repeat constructor.
Qed.

Lemma forM_dispatch_denied (l : list (string * nodeEvent)) s :
  (∀ h, filterHost (cfg s) h = true) →
  Forall (λ e, no_pool_or_policy e = true)
         (effects (forM_ l (λ kf, dispatch_event IP_String nodeUpDelay kf.2)) s).
Proof.
  revert s. induction l as [|[k ev] l IH]; intros s Hdeny; [constructor|].
  cbn [forM_ snd]. rewrite effects_bind. apply Forall_app. split.
  - by apply dispatch_event_denied.
  - apply IH. intros h.
    destruct (dispatch_event_frame IP_String nodeUpDelay ev s) as (-> & _).
    apply Hdeny.
Qed.

(** *** One dispatch entry per address *)

Lemma dispatch_event_one_log ev s :
  count_of is_dispatch_log (effects (dispatch_event IP_String nodeUpDelay ev) s) = 1.
Proof.
  unfold effects at 1. rewrite dispatch_event_run.
  repeat case_decide; destruct (DisableNodeStatusEvents (cfg s)); cbn [snd];
    try done.
  - unfold effects. rewrite handleNodeUp_run. cbn [snd].
    destruct (ring s !! IP_String (host ev)) as [p|]; [|done].
    destruct (filterHost (cfg s) (hosts s p)); [done|].
    by destruct (decide (nodeUpDelay (hosts s p) > 0)%Z).
  - unfold effects. rewrite handleNodeDown_run.
    destruct (ring s !! IP_String (host ev)) as [p|]; cbn [snd]; [|done].
    by destruct (filterHost (cfg s) (HostInfo_setState NodeDown (hosts s p))).
Qed.

Lemma forM_dispatch_logs (l : list (string * nodeEvent)) s :
  count_of is_dispatch_log
    (effects (forM_ l (λ kf, dispatch_event IP_String nodeUpDelay kf.2)) s) = length l.
Proof.
  revert s. induction l as [|[k ev] l IH]; intros s; [done|].
  cbn [forM_ snd length]. rewrite effects_bind, count_of_app.
  by rewrite dispatch_event_one_log, IH.
Qed.

Lemma status_addresses_spec a frames :
  a ∈ status_addresses IP_String frames ↔ status_for IP_String a frames ≠ [].
Proof.
  unfold status_addresses. rewrite elem_of_list_to_set.
  induction frames as [|f frames IH]; [by rewrite elem_of_nil|].
  cbn [omap list_omap status_for].
  destruct f as [| | | | | |c h p|]; try exact IH.
  rewrite elem_of_cons. case_decide as Hh.
  - split; [done|]. intros _. by left.
  - rewrite IH. split; [|by right]. intros [?|?]; [congruence|done].
Qed.

Lemma scan_dom frames s :
  dom (result (foldM (scan_frame IP_String) (false, ∅) frames) s).2 =
    status_addresses IP_String frames.
Proof.
  apply set_eq. intros a.
  rewrite elem_of_dom, scan_lookup, status_addresses_spec.
  unfold merged_for. destruct (status_for IP_String a frames).
  - split; [by intros [? ?]|done].
  - split; [done|]. by eexists.
Qed.

(** X7. What [handleNodeEvent] leaves behind does not depend on the order
    in which it visits the merged events: ring and configuration are
    untouched, a host record is set DOWN exactly when status events are
    enabled and some ring address that points to it has DOWN as its last
    status change in the batch, and every other host record is left as it
    was. *)
Theorem node_event_final_state frames s :
  let s' := exec (handleNodeEvent IP_String nodeUpDelay rangeOrder frames) s in
  cfg s' = cfg s ∧ ring s' = ring s ∧
  ∀ q, (goes_down IP_String s frames q →
          hosts s' q = HostInfo_setState NodeDown (hosts s q)) ∧
       (¬ goes_down IP_String s frames q → hosts s' q = hosts s q).
Proof using rangeOrder_perm.
  cbv zeta.
  destruct (handleNodeEvent_run IP_String nodeUpDelay rangeOrder frames s) as [_ ->].
  set (l := rangeOrder _).
  destruct (forM_dispatch_frame IP_String nodeUpDelay l s) as (Hc & Hr & _).
  split_and!; [done|done|]. intros q.
  destruct (forM_dispatch_hosts l s q) as (Hhit & Hmiss & _). cbv zeta in *.
  split.
  - intros Hg. apply Hhit. by apply goes_down_entries.
  - intros Hg. apply Hmiss. intros Hh. apply Hg. by apply goes_down_entries.
Qed.

(** X8. With [DisableNodeStatusEvents] set, a batch never reaches the up
    or down handlers: [handleNodeEvent] leaves the session as it is, calls
    neither [handleNodeUp] nor [handleNodeDown], and makes no call on the
    pool or the policy. *)
Theorem status_events_disabled_is_inert frames s :
  DisableNodeStatusEvents (cfg s) = true →
  exec (handleNodeEvent IP_String nodeUpDelay rangeOrder frames) s = s ∧
  handler_calls (effects (handleNodeEvent IP_String nodeUpDelay rangeOrder frames) s) = [] ∧
  Forall (λ e, no_pool_or_policy e = true)
         (effects (handleNodeEvent IP_String nodeUpDelay rangeOrder frames) s).
Proof.
  intros Hd.
  destruct (handleNodeEvent_run IP_String nodeUpDelay rangeOrder frames s) as [Htr Hex].
  cbv zeta in Htr, Hex.
  rewrite handler_calls_handleNodeEvent, Htr, Hex.
  set (l := rangeOrder _).
  pose proof (forM_dispatch_disabled l s Hd) as Hl.
  assert (exec (forM_ l (λ kf, dispatch_event IP_String nodeUpDelay kf.2)) s = s) as ->
    by (unfold exec; by rewrite Hl).
  assert (effects (forM_ l (λ kf, dispatch_event IP_String nodeUpDelay kf.2)) s =
            (λ kf, dispatch_log IP_String kf.2) <$> l) as ->
    by (unfold effects; by rewrite Hl).
  clearbody l.
  split_and!; [done| |].
  - clear Hl. induction l as [|[k ev] l IH]; [done|].
    cbn [mbind list_bind snd]. rewrite IH. unfold decision. by rewrite Hd.
  - apply Forall_app. split.
    + eapply Forall_impl; [apply foldM_scan_logs|]. by intros [].
    + apply Forall_app. split; [destruct (_ && _); by repeat constructor|].
      apply Forall_fmap. by apply Forall_true.
Qed.

(** X9. When the host filter rejects every host, a batch of node events
    never reaches the pool or the policy, and neither does
    [handleNodeConnected]: the handlers only log and, for an unknown
    address, request a ring refresh. *)
Theorem denied_hosts_never_reach_pool_or_policy frames s :
  (∀ h, filterHost (cfg s) h = true) →
  Forall (λ e, no_pool_or_policy e = true)
         (effects (handleNodeEvent IP_String nodeUpDelay rangeOrder frames) s) ∧
  ∀ p, Forall (λ e, no_pool_or_policy e = true) (effects (handleNodeConnected p) s).
Proof.
  intros Hdeny. split.
  - destruct (handleNodeEvent_run IP_String nodeUpDelay rangeOrder frames s) as [Htr _].
    cbv zeta in Htr. rewrite Htr.
    apply Forall_app. split.
    + eapply Forall_impl; [apply foldM_scan_logs|]. by intros [].
    + apply Forall_app. split; [destruct (_ && _); by repeat constructor|].
      by apply forM_dispatch_denied.
  - intros p. unfold effects. rewrite handleNodeConnected_run. cbn [snd].
    rewrite Hdeny. by repeat constructor.
Qed.

(** X10. [handleNodeEvent] logs one dispatch entry per distinct address
    that has a status-change frame in the batch, however many frames the
    address has, and also when status events are disabled. *)
Theorem one_dispatch_entry_per_address frames s :
  count_of is_dispatch_log
    (effects (handleNodeEvent IP_String nodeUpDelay rangeOrder frames) s) =
    size (status_addresses IP_String frames).
Proof using rangeOrder_perm.
  destruct (handleNodeEvent_run IP_String nodeUpDelay rangeOrder frames s) as [Htr _].
  cbv zeta in Htr. rewrite Htr, !count_of_app, forM_dispatch_logs.
  destruct (foldM_scan_quiet IP_String frames (false, ∅) s) as (_ & Hq & _).
  assert (count_of is_dispatch_log
            (effects (foldM (scan_frame IP_String) (false, ∅) frames) s) = 0) as ->.
  { clear Htr. induction Hq as [|e tr (_ & He & _) _ IH]; [done|].
    unfold count_of in *. cbn [List.filter]. by rewrite He. }
  assert (count_of is_dispatch_log
            (if existsb is_topology frames && negb (DisableTopologyEvents (cfg s))
             then [DebounceRingRefresh] else []) = 0) as ->
    by (by destruct (_ && _)).
  rewrite rangeOrder_perm, length_map_to_list, <- (scan_dom frames s).
  cbn [plus]. symmetry. apply size_dom.
Qed.
End node_more.

Lemma node_event_final_state_witness :
  State (hosts (exec (handleNodeEvent dotted (λ _, 0%Z) map_to_list
                        [statusChangeEventFrame "UP" ip_10_0_0_1 9042;
                         statusChangeEventFrame "DOWN" ip_10_0_0_1 9042])
                     sample_session) 0) = NodeDown.
Proof.
  pose proof (node_event_final_state dotted (λ _, 0%Z) map_to_list
                (λ m, Permutation_refl (map_to_list m))
                [statusChangeEventFrame "UP" ip_10_0_0_1 9042;
                 statusChangeEventFrame "DOWN" ip_10_0_0_1 9042]
                sample_session) as (_ & _ & Hq).
  rewrite (proj1 (Hq 0)); [reflexivity|].
  split; [reflexivity|]. exists "10.0.0.1". split; vm_compute; reflexivity.
Defined.

Lemma status_events_disabled_is_inert_witness :
  handler_calls
    (effects (handleNodeEvent dotted (λ _, 0%Z) map_to_list sample_batch)
             status_disabled_session) = [].
Proof.
  apply (status_events_disabled_is_inert dotted (λ _, 0%Z) map_to_list sample_batch
           status_disabled_session).
  reflexivity.
Defined.

Lemma denied_hosts_never_reach_pool_or_policy_witness :
  Forall (λ e, no_pool_or_policy e = true)
         (effects (handleNodeEvent dotted (λ _, 0%Z) map_to_list sample_batch)
                  deny_all_session).
Proof.
  apply (denied_hosts_never_reach_pool_or_policy dotted (λ _, 0%Z) map_to_list
           sample_batch deny_all_session).
  intros h. reflexivity.
Defined.

Lemma one_dispatch_entry_per_address_witness :
  count_of is_dispatch_log
    (effects (handleNodeEvent dotted (λ _, 0%Z) map_to_list sample_batch) sample_session) =
    size (status_addresses dotted sample_batch).
Proof.
  apply (one_dispatch_entry_per_address dotted (λ _, 0%Z) map_to_list
           (λ m, Permutation_refl (map_to_list m))).
Defined.

(** ** The logger adapter *)

Section logger_facts.
Implicit Types (recv : loggerAdapter) (msg : string) (fields : list LogField).

Lemma fill_values_spec fields (done_ : list (option LogValue)) :
  fill_values fields (done_ ++ replicate (length fields) None) (length done_) =
    Some (done_ ++ ((λ v, Some (Value v)) <$> fields)).
Proof.
  revert done_. induction fields as [|v fields IH]; intros done_.
  - cbn. by rewrite !app_nil_r.
  - cbn [fill_values length replicate fmap list_fmap].
    rewrite decide_True by (rewrite length_app; cbn; lia).
    rewrite <- (Nat.add_0_r (length done_)) at 1.
    rewrite insert_app_r. cbn [insert list_insert].
    replace (S (length done_)) with (length (done_ ++ [Some (Value v)]))
      by (rewrite length_app; cbn; lia).
    rewrite (cons_middle (Some (Value v))), app_assoc, IH.
    by rewrite <- app_assoc.
Qed.

Lemma legacy_values_spec fields :
  legacy_values fields = Some ((λ v, Some (Value v)) <$> fields).
Proof.
  unfold legacy_values.
  assert ((if decide (length fields ≤ 5)
           then take (length fields) (replicate 5 (@None LogValue))
           else replicate (length fields) None) = replicate (length fields) None) as ->.
  { case_decide; [|done]. rewrite take_replicate. f_equal. lia. }
  apply (fill_values_spec fields []).
Qed.

Lemma logLegacy_spec recv msg fields :
  logLegacy recv msg fields =
    match legacyLogger recv with
    | None => None
    | Some lg =>
        Some (StdLogger_Printf lg ("gocql: " +:+ msg +:+ newline)
                ((λ v, Some (Value v)) <$> fields))
    end.
Proof.
  unfold logLegacy. rewrite legacy_values_spec. cbn. by destruct (legacyLogger recv).
Qed.

(** Every method is the same code up to the level it compares. *)
Lemma loggerAdapter_method_spec m recv msg fields :
  loggerAdapter_method m recv msg fields =
    match advLogger recv with
    | Some a => Some (AdvancedLogger_call a (logMethod_level m) msg fields)
    | None =>
        if decide (LogLevel_int (logMethod_level m) ≤ legacyLogLevel recv)%Z
        then logLegacy recv msg fields else Some []
    end.
Proof. by destruct m. Qed.

(** X11. [logLegacy] never panics on an index and hands [Printf] exactly
    one value per field, in field order, whether the values fit the
    5-element array or need a fresh slice; the format is the message between
    "gocql: " and a newline.  Without a legacy logger the call panics. *)
Theorem logLegacy_hands_over_every_value recv msg fields :
  legacy_values fields = Some ((λ v, Some (Value v)) <$> fields) ∧
  (legacyLogger recv = Some someStdLogger →
   logLegacy recv msg fields =
     Some [StdPrintf ("gocql: " +:+ msg +:+ newline) ((λ v, Some (Value v)) <$> fields)]) ∧
  (legacyLogger recv = None → logLegacy recv msg fields = None).
Proof.
  split; [apply legacy_values_spec|].
  rewrite logLegacy_spec. by split; intros ->.
Qed.

(** X12. Severity decides what an adapter lets through: when a method is
    silent, every less severe method is silent too.  With only a legacy
    logger, a method prints, through one [Printf], exactly when its level is
    at most the adapter's level. *)
Theorem legacy_level_is_a_threshold recv msg fields :
  (∀ m1 m2,
     (LogLevel_int (logMethod_level m1) ≤ LogLevel_int (logMethod_level m2))%Z →
     loggerAdapter_method m1 recv msg fields = Some [] →
     loggerAdapter_method m2 recv msg fields = Some []) ∧
  (advLogger recv = None → legacyLogger recv = Some someStdLogger →
   ∀ m, loggerAdapter_method m recv msg fields =
          if decide (LogLevel_int (logMethod_level m) ≤ legacyLogLevel recv)%Z
          then Some [StdPrintf ("gocql: " +:+ msg +:+ newline)
                       ((λ v, Some (Value v)) <$> fields)]
          else Some []).
Proof.
  split.
  - intros m1 m2 Hle. rewrite !loggerAdapter_method_spec, logLegacy_spec.
    destruct (advLogger recv) as [[|]|]; [done|done|].
    repeat case_decide; try done; try lia.
  - intros Ha Hl m. rewrite loggerAdapter_method_spec, logLegacy_spec, Ha, Hl.
    by case_decide.
Qed.

(** X13. An adapter without an advanced logger makes no call, and so
    cannot panic, for a method whose level is above the adapter's level,
    whatever its legacy logger is, nil included; so the adapter that
    [newInternalLoggerFromAdvancedLogger] makes from nil swallows every
    call.  With neither logger, a method whose level is at most the
    adapter's level panics.  [nilInternalLogger], which holds the
    [nopLogger] value, discards every call. *)
Theorem adapter_without_loggers_panics_at_its_level m recv msg fields :
  advLogger recv = None →
  ((legacyLogLevel recv < LogLevel_int (logMethod_level m))%Z →
   loggerAdapter_method m recv msg fields = Some []) ∧
  (legacyLogger recv = None →
   (LogLevel_int (logMethod_level m) ≤ legacyLogLevel recv)%Z →
   loggerAdapter_method m recv msg fields = None) ∧
  loggerAdapter_method m (newInternalLoggerFromAdvancedLogger None) msg fields = Some [] ∧
  loggerAdapter_method m nilInternalLogger msg fields = Some [].
Proof.
  intros Ha. split_and!.
  - intros Hlt. rewrite loggerAdapter_method_spec, Ha.
    rewrite decide_False; [done|lia].
  - intros Hl Hle. rewrite loggerAdapter_method_spec, logLegacy_spec, Ha, Hl.
    by rewrite decide_True.
  - rewrite loggerAdapter_method_spec. cbn. by destruct m.
  - by rewrite loggerAdapter_method_spec.
Qed.

(** X14. [LogLevel.String] tells levels apart: two levels with the same
    text are the same level, named or not. *)
Theorem LogLevel_String_is_injective (a b : Z) :
  LogLevel_String a = LogLevel_String b → a = b.
Proof.
  unfold LogLevel_String, strings_Join, strconv_Itoa. cbn [LogLevel_int String.concat].
  repeat case_decide; subst; try done; cbn; intros Heq; try discriminate Heq.
  injection Heq as Heq. by apply (inj pretty).
Qed.

(** X15. What becomes of the warning [debounce] logs for a frame it drops
    depends on the logger: behind an adapter with only a legacy logger, the
    warning is printed when the adapter's level is at least
    [LogLevelWarn], and the drop leaves no trace at all when it is lower. *)
Theorem dropped_frame_warning_needs_warn_level e now f level :
  ¬ length (events e) < eventBufferSize →
  ∃ w, effects (debounce now f) e = [w] ∧
       log_through (newInternalLoggerFromStdLogger (Some someStdLogger) level) w =
         if decide (LogLevel_int LogLevelWarn ≤ level)%Z
         then Some [StdPrintf ("gocql: %s: buffer full, dropping event frame: %s" +:+ newline)
                      [Some (VString (name e)); Some (VFrame f)]]
         else Some [].
Proof.
  intros Hfull. eexists. split.
  - unfold effects. by rewrite debounce_full.
  - cbn [drop_warning log_through]. unfold loggerAdapter_Warning.
    cbn [newInternalLoggerFromStdLogger advLogger legacyLogLevel].
    rewrite logLegacy_spec. by case_decide.
Qed.
End logger_facts.

Lemma logLegacy_hands_over_every_value_witness :
  logLegacy (newInternalLoggerFromStdLogger (Some someStdLogger) 5) "node is UP: %s:%d"
    [NewLogField "event_ip" (VString "10.0.0.1"); NewLogField "event_port" (VInt 9042)] =
    Some [StdPrintf ("gocql: node is UP: %s:%d" +:+ newline)
            [Some (VString "10.0.0.1"); Some (VInt 9042)]].
Proof.
  apply (proj1 (proj2 (logLegacy_hands_over_every_value
                         (newInternalLoggerFromStdLogger (Some someStdLogger) 5)
                         "node is UP: %s:%d"
                         [NewLogField "event_ip" (VString "10.0.0.1");
                          NewLogField "event_port" (VInt 9042)]))).
  reflexivity.
Defined.

Lemma legacy_level_is_a_threshold_witness :
  loggerAdapter_method MInfo (newInternalLoggerFromStdLogger (Some someStdLogger) 3)
    "dispatching" [] = Some [].
Proof.
  rewrite (proj2 (legacy_level_is_a_threshold
                    (newInternalLoggerFromStdLogger (Some someStdLogger) 3) "dispatching" [])
             eq_refl eq_refl MInfo).
  reflexivity.
Defined.

Lemma adapter_without_loggers_panics_at_its_level_witness :
  loggerAdapter_method MDebug (newInternalLoggerFromStdLogger None 3) "quiet" [] = Some [] ∧
  loggerAdapter_method MError (newInternalLoggerFromStdLogger None 3) "boom" [] = None.
Proof.
  split.
  - apply (proj1 (adapter_without_loggers_panics_at_its_level MDebug
                    (newInternalLoggerFromStdLogger None 3) "quiet" [] eq_refl)).
    simpl. lia.
  - apply (proj1 (proj2 (adapter_without_loggers_panics_at_its_level MError
                           (newInternalLoggerFromStdLogger None 3) "boom" [] eq_refl))).
    + reflexivity.
    + simpl. lia.
Defined.

Lemma LogLevel_String_is_injective_witness : (3 = 3)%Z.
Proof.
  apply (LogLevel_String_is_injective 3 3). reflexivity.
Defined.

Lemma dropped_frame_warning_needs_warn_level_witness :
  ∃ w, effects (debounce 7 (otherFrame "late")) full_debouncer = [w] ∧
       log_through (newInternalLoggerFromStdLogger (Some someStdLogger) 2) w = Some [].
Proof.
  destruct (dropped_frame_warning_needs_warn_level full_debouncer 7 (otherFrame "late") 2)
    as (w & Hw & Hlog).
  - unfold eventBufferSize. simpl. lia.
  - exists w. split; [exact Hw|]. rewrite Hlog. reflexivity.
Defined.

(** ** Batches and what becomes of them *)

Section batching_facts.
Implicit Types (e : eventDebouncer) (s : Session).

Lemma run_steps_batches_bounded l e :
  length (events e) ≤ eventBufferSize →
  Forall (λ b, b ≠ [] ∧ length b ≤ eventBufferSize) (batches (effects (run_steps l) e)).
Proof.
  revert e. induction l as [|st l IH]; intros e Hle; [constructor|].
  destruct (run_steps_cons st l e) as [-> _]. rewrite batches_app.
  apply Forall_app. split; [|apply IH; by apply do_step_bound].
  destruct (do_step_cases st e)
    as [(now & f & -> & _ & _ & ->)|[(now & f & -> & _ & _ & ->)|
        [(-> & _ & _ & ->)|(-> & He & _ & ->)]]]; cbn; try constructor; try done.
Qed.

Lemma bind_concat {A B} (f : A → list B) (bs : list (list A)) :
  bs ≫= (λ b, b ≫= f) = concat bs ≫= f.
Proof.
  induction bs as [|b bs IH]; [done|].
  cbn [mbind list_bind concat]. by rewrite IH, bind_app.
Qed.

(** X16. Every batch a debouncer hands to its callback is non-empty and
    holds at most 1000 frames, whatever calls of [debounce] and timer
    expiries a new debouncer goes through. *)
Theorem delivered_batches_are_bounded nm l :
  Forall (λ b, b ≠ [] ∧ length b ≤ eventBufferSize)
         (batches (effects (run_steps l) (newEventDebouncer nm))).
Proof. apply run_steps_batches_bounded. simpl. lia. Qed.

(** X17. How the debouncer cuts a stream of schema frames into batches
    does not matter to the schema reconciler: for at most 1000 calls of
    [debounce], at any instants, handling the delivered batches one after
    the other makes the same calls, in the same order, as handling all the
    frames as one batch. *)
Theorem schema_handling_ignores_batching nm calls s :
  length calls ≤ eventBufferSize →
  batches (untimed (timed_run calls (newEventDebouncer nm)).2)
    ≫= (λ b, effects (handleSchemaEvent b) s) =
  effects (handleSchemaEvent calls.*2) s.
Proof.
  intros Hlen.
  destruct (timed_run_accounting calls (newEventDebouncer nm)) as (_ & _ & _ & Hord);
    [done|].
  destruct Hord as [Hord _]; [simpl; lia|]. cbn [newEventDebouncer events app] in Hord.
  rewrite <- Hord. generalize (batches (untimed (timed_run calls (newEventDebouncer nm)).2)).
  intros bs. unfold effects at 2. rewrite handleSchemaEvent_run. cbn [snd].
  rewrite <- bind_concat.
  induction bs as [|b bs IH]; [done|].
  cbn [mbind list_bind]. rewrite IH. unfold effects. by rewrite handleSchemaEvent_run.
Qed.
End batching_facts.

Lemma schema_handling_ignores_batching_witness :
  batches (untimed (timed_run sample_sparse_calls (newEventDebouncer "schema")).2)
    ≫= (λ b, effects (handleSchemaEvent b) sample_session) =
  [ClearSchema "app"; ClearSchema "app"].
Proof.
  rewrite (schema_handling_ignores_batching "schema" sample_sparse_calls sample_session).
  - reflexivity.
  - unfold eventBufferSize. simpl. lia.
Defined.
